(** * De Bruijn graph DNA assembler (Assembler.py): model and properties

    The Python program reads k-mers, builds a De Bruijn multigraph whose
    nodes are the (k-1)-mers, chooses a start node from the degree tables
    and walks the graph with an explicit stack (Hierholzer style), removing
    every edge it follows.  This file embeds the three functions of the
    algorithmic core and [main] as Rocq functions and proves the properties
    listed in the specification; the reader of the input file and the
    script around [main] follow, with further properties of all of them.

    Representation choices
    - a Python [str] is a [string];
    - a Python [int] is a [Z];
    - a [dict] / [defaultdict] is an association list in insertion order
      (iteration over a Python dict follows insertion order, and
      [find_starting_node] depends on it); reading a missing key of a
      [defaultdict] inserts the default value at the end;
    - a Python [list] keeps its order: [append] adds at the right end and
      [pop()] removes from the right end; the [deque] [path] only uses
      [appendleft] / [popleft], so its left end is the head of the list;
    - in-place mutation is explicit state passing: a function that mutates
      an argument returns the new value of that argument;
    - exceptions are values of [result]. *)

From Stdlib Require Import List String Ascii ZArith Arith Lia Bool Permutation.
Import ListNotations.

Open Scope string_scope.
Open Scope list_scope.

(** ** Exceptions *)

Inductive exn : Type :=
| IndexError   (* [node[-1]] on an empty string, [popleft] on an empty deque *)
| ValueError.  (* raised by [main] when no start node was found *)

Inductive result (A : Type) : Type :=
| Ok (a : A)
| Raise (e : exn).

Arguments Ok {A} a.
Arguments Raise {A} e.

Definition bind {A B : Type} (r : result A) (f : A -> result B) : result B :=
  match r with
  | Ok a => f a
  | Raise e => Raise e
  end.

Notation "x <- r ;; k" := (bind r (fun x => k))
  (at level 61, r at next level, right associativity).

(** ** Strings and lists as Python uses them *)

Module Py.

(** [s[:-1]]: every character but the last; the empty string for a
    string of length 0 or 1. *)
Fixpoint slice_init (s : string) : string :=
  match s with
  | EmptyString => EmptyString
  | String c t =>
      match t with
      | EmptyString => EmptyString
      | String _ _ => String c (slice_init t)
      end
  end.

(** [s[1:]]: every character but the first; slicing never raises. *)
Definition slice_tail (s : string) : string :=
  match s with
  | EmptyString => EmptyString
  | String _ t => t
  end.

(** [s[-1]]: the last character as a one-character string; IndexError on
    the empty string. *)
Fixpoint index_last (s : string) : result string :=
  match s with
  | EmptyString => Raise IndexError
  | String c t =>
      match t with
      | EmptyString => Ok (String c EmptyString)
      | String _ _ => index_last t
      end
  end.

(** [''.join(l)]. *)
Definition join (l : list string) : string := String.concat "" l.

(** Splits a list at its right end: [l[:-1]] and [l[-1]]; [None] for the
    empty list.  [l.pop()] returns the second component and leaves the
    first; [l[-1]] reads the second component. *)
Fixpoint unsnoc {A : Type} (l : list A) : option (list A * A) :=
  match l with
  | [] => None
  | x :: t =>
      match unsnoc t with
      | None => Some ([], x)
      | Some (t', y) => Some (x :: t', y)
      end
  end.

End Py.

(** ** Dictionaries in insertion order *)

Section Dict.

Context {V : Type}.

Definition dict : Type := list (string * V).

(** [k in d] followed by [d[k]]. *)
Fixpoint dict_get (d : dict) (k : string) : option V :=
  match d with
  | [] => None
  | (k', v) :: r => if String.eqb k' k then Some v else dict_get r k
  end.

(** [d[k] = v]: an existing key keeps its position, a new key goes last. *)
Fixpoint dict_set (d : dict) (k : string) (v : V) : dict :=
  match d with
  | [] => [(k, v)]
  | (k', v') :: r =>
      if String.eqb k' k then (k', v) :: r else (k', v') :: dict_set r k v
  end.

(** [list(d)]: the keys in iteration order. *)
Definition dict_keys (d : dict) : list string := map fst d.

(** [d[k]] on a [defaultdict] whose factory returns [dflt]: a missing key
    is inserted with the default, and the dictionary is returned with it. *)
Definition defaultdict_getitem (dflt : V) (d : dict) (k : string) : V * dict :=
  match dict_get d k with
  | Some v => (v, d)
  | None => (dflt, dict_set d k dflt)
  end.

(** The value a reader sees at [k] without touching the dictionary. *)
Definition dict_peek (dflt : V) (d : dict) (k : string) : V :=
  match dict_get d k with
  | Some v => v
  | None => dflt
  end.

(** [d[k] = f(d[k])] on a [defaultdict], as one pass over the list. *)
Fixpoint dict_upsert (f : V -> V) (dflt : V) (d : dict) (k : string) : dict :=
  match d with
  | [] => [(k, f dflt)]
  | (k', v) :: r =>
      if String.eqb k' k then (k', f v) :: r
      else (k', v) :: dict_upsert f dflt r k
  end.

End Dict.

Arguments dict V : clear implicits.

(** A node is a (k-1)-mer. *)
Abbreviation Node := string (only parsing).
Definition graph_t : Type := dict (list Node).
Definition degree_t : Type := dict Z.

(** ** build_de_bruijn_graph (Assembler.py, lines 22-47) *)

(** [graph[prefix].append(suffix)] *)
Definition graph_append (graph : graph_t) (prefix suffix : Node) : graph_t :=
  let '(adj, graph1) := defaultdict_getitem [] graph prefix in
  dict_set graph1 prefix (adj ++ [suffix]).

(** [degree[n] += 1] *)
Definition degree_incr (degree : degree_t) (n : Node) : degree_t :=
  let '(v, degree1) := defaultdict_getitem 0%Z degree n in
  dict_set degree1 n (v + 1)%Z.

(** One iteration of [for kmer in kmers]. *)
Definition build_body (acc : graph_t * degree_t * degree_t) (kmer : string)
  : graph_t * degree_t * degree_t :=
  let '(graph, in_degree, out_degree) := acc in
  let prefix := Py.slice_init kmer in
  let suffix := Py.slice_tail kmer in
  let graph := graph_append graph prefix suffix in
  let out_degree := degree_incr out_degree prefix in
  let in_degree := degree_incr in_degree suffix in
  (graph, in_degree, out_degree).

Definition build_de_bruijn_graph (kmers : list string)
  : graph_t * degree_t * degree_t :=
  fold_left build_body kmers ([], [], []).

(** ** find_starting_node (lines 50-68) *)

(** The [for node in graph] loop over the remaining keys.  Both degree
    tables are [defaultdict]s, so reading them inserts missing keys; the
    tables are returned with those insertions.  [start_node] is the
    candidate saved so far ([None] in Python when there is none). *)
Fixpoint find_starting_node_loop (nodes : list Node) (start_node : option Node)
  (in_degree out_degree : degree_t) : option Node * degree_t * degree_t :=
  match nodes with
  | [] => (start_node, in_degree, out_degree)
  | node :: rest =>
      let '(o, out_degree) := defaultdict_getitem 0%Z out_degree node in
      let '(i, in_degree) := defaultdict_getitem 0%Z in_degree node in
      if (o - i =? 1)%Z then (Some node, in_degree, out_degree)
      else
        let start_node := if (i =? o)%Z then Some node else start_node in
        find_starting_node_loop rest start_node in_degree out_degree
  end.

Definition find_starting_node_full (graph : graph_t) (in_degree out_degree : degree_t)
  : option Node * degree_t * degree_t :=
  find_starting_node_loop (dict_keys graph) None in_degree out_degree.

(** The returned node ([None] is Python's [None]). *)
Definition find_starting_node (graph : graph_t) (in_degree out_degree : degree_t)
  : option Node :=
  fst (fst (find_starting_node_full graph in_degree out_degree)).

(** ** reconstruct_dna (lines 71-96) *)

Record walk_state : Type := mkState {
  st_graph : graph_t;
  st_stack : list Node;   (* Python list, top of the stack at the right end *)
  st_path : list Node     (* deque, left end first *)
}.

(** One iteration of [while stack:]; [None] when the loop condition is
    false (empty stack). *)
Definition walk_step (s : walk_state) : option walk_state :=
  match Py.unsnoc (st_stack s) with
  | None => None
  | Some (below, current) =>
      let '(adj, graph1) := defaultdict_getitem [] (st_graph s) current in
      match Py.unsnoc adj with
      | Some (adj', next_node) =>
          Some (mkState (dict_set graph1 current adj')
                        (st_stack s ++ [next_node])
                        (st_path s))
      | None =>
          Some (mkState graph1 below (current :: st_path s))
      end
  end.

(** At most [fuel] iterations of the loop. *)
Fixpoint walk_loop (fuel : nat) (s : walk_state) : walk_state :=
  match fuel with
  | O => s
  | S fuel' =>
      match walk_step s with
      | None => s
      | Some s' => walk_loop fuel' s'
      end
  end.

(** Number of edges left in the adjacency structure. *)
Definition edge_count (graph : graph_t) : nat :=
  list_sum (map (fun kv => List.length (snd kv)) graph).

(** Every iteration lowers this number by one (lemma [walk_step_measure]),
    so it bounds the number of iterations. *)
Definition walk_measure (s : walk_state) : nat :=
  2 * edge_count (st_graph s) + List.length (st_stack s).

Definition walk_init (graph : graph_t) (start_node : Node) : walk_state :=
  mkState graph [start_node] [].

(** The state when the [while] loop exits. *)
Definition walk_final (graph : graph_t) (start_node : Node) : walk_state :=
  let s := walk_init graph start_node in
  walk_loop (walk_measure s) s.

(** [[node[-1] for node in path]] *)
Fixpoint last_chars (path : list Node) : result (list string) :=
  match path with
  | [] => Ok []
  | node :: rest =>
      c <- Py.index_last node ;;
      cs <- last_chars rest ;;
      Ok (c :: cs)
  end.

(** [''.join([path.popleft()] + [node[-1] for node in path])] *)
Definition assemble (path : list Node) : result string :=
  match path with
  | [] => Raise IndexError
  | first :: rest =>
      cs <- last_chars rest ;;
      Ok (Py.join (first :: cs))
  end.

(** The graph is mutated in place, so the caller's graph after the call is
    the first component; the second is the returned string or the
    exception. *)
Definition reconstruct_dna (graph : graph_t) (start_node : Node)
  : graph_t * result string :=
  let s := walk_final graph start_node in
  (st_graph s, assemble (st_path s)).

(** ** main (lines 99-122)

    [read_kmers_from_file] performs input and is a parameter; the result
    is the text written to the output file, or the exception raised. *)
Definition main (read_kmers_from_file : string -> list string)
  (input_file : string) : result string :=
  let kmers := read_kmers_from_file input_file in
  let '(graph, in_degree, out_degree) := build_de_bruijn_graph kmers in
  match find_starting_node graph in_degree out_degree with
  | None => Raise ValueError
  | Some start_node => snd (reconstruct_dna graph start_node)
  end.

(** ** Specification-side notions *)

(** The first [n] characters of [s] ([s[:n]]). *)
Fixpoint take (n : nat) (s : string) : string :=
  match n, s with
  | S n', String c t => String c (take n' t)
  | _, _ => EmptyString
  end.

(** The overlapping [k]-mers of [s], sliding a window of width [k] by one
    position from left to right. *)
Fixpoint kmers_of (k : nat) (s : string) : list string :=
  if Nat.leb k (String.length s) then
    take k s :: match s with
                | EmptyString => []
                | String _ t => kmers_of k t
                end
  else [].

(** Sum of the values of a degree table. *)
Definition degree_sum (d : degree_t) : Z := fold_right Z.add 0%Z (map snd d).

(** ** Reading the result of build_de_bruijn_graph *)

Definition graph_of (r : graph_t * degree_t * degree_t) : graph_t := fst (fst r).
Definition in_degree_of (r : graph_t * degree_t * degree_t) : degree_t := snd (fst r).
Definition out_degree_of (r : graph_t * degree_t * degree_t) : degree_t := snd r.

(** The degree a reader sees for [n]: a missing key of a degree table reads
    as 0. *)
Definition degree (d : degree_t) (n : Node) : Z := dict_peek 0%Z d n.

(** [out_degree[n] - in_degree[n] == 1] *)
Definition is_source (in_degree out_degree : degree_t) (n : Node) : bool :=
  (degree out_degree n - degree in_degree n =? 1)%Z.

(** [in_degree[n] == out_degree[n]] *)
Definition is_balanced (in_degree out_degree : degree_t) (n : Node) : bool :=
  (degree in_degree n =? degree out_degree n)%Z.

(** The first and the last balanced key of the graph in scan order. *)
Definition first_balanced (graph : graph_t) (in_degree out_degree : degree_t)
  : option Node :=
  find (is_balanced in_degree out_degree) (dict_keys graph).

Definition last_balanced (graph : graph_t) (in_degree out_degree : degree_t)
  : option Node :=
  find (is_balanced in_degree out_degree) (rev (dict_keys graph)).

(** ** The loop of reconstruct_dna as a relation *)

(** [walk_steps n s s']: [n] iterations of the loop lead from [s] to [s']. *)
Inductive walk_steps : nat -> walk_state -> walk_state -> Prop :=
| steps_refl (s : walk_state) : walk_steps 0 s s
| steps_cons (n : nat) (s s1 s' : walk_state) :
    walk_step s = Some s1 -> walk_steps n s1 s' -> walk_steps (S n) s s'.

(** [walk_run n s s']: started in [s], the loop exits after exactly [n]
    iterations, in state [s']. *)
Definition walk_run (n : nat) (s s' : walk_state) : Prop :=
  walk_steps n s s' /\ walk_step s' = None.

(** The three kinds of iteration. *)
Inductive walk_step_rel : walk_state -> walk_state -> Prop :=
| step_push graph below current adj next_node path :
    dict_get graph current = Some (adj ++ [next_node]) ->
    walk_step_rel (mkState graph (below ++ [current]) path)
                  (mkState (dict_set graph current adj)
                           ((below ++ [current]) ++ [next_node]) path)
| step_pop graph below current path :
    dict_get graph current = Some [] ->
    walk_step_rel (mkState graph (below ++ [current]) path)
                  (mkState graph below (current :: path))
| step_pop_new graph below current path :
    dict_get graph current = None ->
    walk_step_rel (mkState graph (below ++ [current]) path)
                  (mkState (dict_set graph current []) below (current :: path)).

(** What every iteration keeps, relative to the graph and start node the
    walk began with. *)
Record walk_inv (graph0 : graph_t) (start_node : Node) (s : walk_state) : Prop := {
  (* nodes already moved to the path have no edge left *)
  inv_path_done : forall n, In n (st_path s) -> dict_get (st_graph s) n = Some [];
  (* the start node stays at the bottom of the stack, then heads the path *)
  inv_first : exists rest, st_stack s ++ st_path s = start_node :: rest;
  (* adjacency lists only lose elements, from the right *)
  inv_prefix : forall n, exists consumed,
      dict_peek [] graph0 n = dict_peek [] (st_graph s) n ++ consumed;
  (* one node enters the stack per removed edge *)
  inv_count : edge_count graph0 + 1
              = edge_count (st_graph s) + List.length (st_stack s)
                + List.length (st_path s)
}.

(** ** Node lengths *)

(** Every key and every successor stored in the graph has length [j]. *)
Definition graph_nodes_len (j : nat) (graph : graph_t) : Prop :=
  Forall (fun kv => String.length (fst kv) = j /\
                    Forall (fun n => String.length n = j) (snd kv)) graph.

(** Kept by every iteration: all nodes in sight have length [j]. *)
Definition walk_nodes_len (j : nat) (s : walk_state) : Prop :=
  graph_nodes_len j (st_graph s) /\
  Forall (fun n => String.length n = j) (st_stack s) /\
  Forall (fun n => String.length n = j) (st_path s).

(** ** Edges and Eulerian trails *)

(** Consecutive pairs of a list. *)
Fixpoint pairs {A : Type} (l : list A) : list (A * A) :=
  match l with
  | [] => []
  | a :: t =>
      match t with
      | [] => []
      | b :: _ => (a, b) :: pairs t
      end
  end.

(** The edge a k-mer stands for: from its prefix to its suffix. *)
Definition kmer_edge (kmer : string) : Node * Node :=
  (Py.slice_init kmer, Py.slice_tail kmer).

(** The k-mer an edge stands for: the first character of the source node
    followed by the target node. *)
Definition edge_kmer (e : Node * Node) : string :=
  match fst e with
  | String c _ => String c (snd e)
  | EmptyString => snd e
  end.

(** Both ends have length [j] and the target continues the source. *)
Definition overlap (j : nat) (e : Node * Node) : Prop :=
  String.length (fst e) = j /\ String.length (snd e) = j /\
  Py.slice_tail (fst e) = Py.slice_init (snd e).

Definition edge_dec (e1 e2 : Node * Node) : {e1 = e2} + {e1 <> e2}.
Proof. decide equality; apply string_dec. Defined.

(** The edges stored in the adjacency structure, as a list. *)
Definition graph_edges (graph : graph_t) : list (Node * Node) :=
  flat_map (fun kv => map (pair (fst kv)) (snd kv)) graph.

(** Number of edges of [es] that leave, respectively enter, [u]. *)
Definition out_count (es : list (Node * Node)) (u : Node) : nat :=
  count_occ string_dec (map fst es) u.

Definition in_count (es : list (Node * Node)) (u : Node) : nat :=
  count_occ string_dec (map snd es) u.

Definition unit_at (a u : Node) : nat := if string_dec a u then 1 else 0.

(** The degrees of [es] are those of a trail from [top] to [x]: balanced
    everywhere, except one more outgoing edge at [top] and one more incoming
    edge at [x] when the two differ. *)
Definition balanced_between (es : list (Node * Node)) (top x : Node) : Prop :=
  forall u, out_count es u + unit_at x u = in_count es u + unit_at top u.

(** [trail] is a sequence of nodes that uses every edge of the graph once:
    an Eulerian trail, starting at the head of [trail]. *)
Definition eulerian_trail (graph : graph_t) (trail : list Node) : Prop :=
  Permutation (graph_edges graph) (pairs trail).

(** Hierholzer's invariant, relative to the edges [edges0] the walk began
    with.  While the stack is not empty there is a node [x] such that the
    edges still stored, the edges along the stack and the edges along
    [x :: path] make up [edges0], and the stored edges are balanced between
    the top of the stack and [x]. *)
Definition trail_inv (edges0 : list (Node * Node)) (s : walk_state) : Prop :=
  NoDup (dict_keys (st_graph s)) /\
  match Py.unsnoc (st_stack s) with
  | Some (_, top) =>
      exists x,
        Permutation edges0 (graph_edges (st_graph s) ++ pairs (st_stack s)
                            ++ pairs (x :: st_path s)) /\
        balanced_between (graph_edges (st_graph s)) top x
  | None =>
      Permutation edges0 (graph_edges (st_graph s) ++ pairs (st_path s))
  end.

(** ** The graph of a chain of distinct nodes *)

Definition chain_graph (es : list (Node * Node)) : graph_t :=
  map (fun e => (fst e, [snd e])) es.

Definition chain_in_degree (es : list (Node * Node)) : degree_t :=
  map (fun e => (snd e, 1%Z)) es.

Definition chain_out_degree (es : list (Node * Node)) : degree_t :=
  map (fun e => (fst e, 1%Z)) es.

(** Entries whose edges are all consumed. *)
Definition empties (ns : list Node) : graph_t := map (fun n => (n, [])) ns.

(** ** Example inputs *)

Definition linear_kmers : list string := ["AAB"; "ABC"; "BCD"; "CDA"].

Definition cycle_kmers : list string := ["ABA"; "BAB"].

Definition two_component_kmers : list string := ["AB"; "CD"].

(** ** read_kmers_from_file (lines 8-19) and the script (lines 124-141)

    Characters are code points below 256, as everywhere in this file. *)

Module PyStr.

(** [c.isspace()] for a code point below 256: tab, line feed, vertical tab,
    form feed, carriage return, the separators 28 to 31, space, next line
    (133) and no-break space (160). *)
Definition isspace (c : ascii) : bool :=
  let n := nat_of_ascii c in
  (Nat.leb 9 n && Nat.leb n 13) || (Nat.leb 28 n && Nat.leb n 32)
  || Nat.eqb n 133 || Nat.eqb n 160.

(** [s.lstrip()] *)
Fixpoint lstrip (s : string) : string :=
  match s with
  | EmptyString => EmptyString
  | String c t => if isspace c then lstrip t else s
  end.

(** [s.rstrip()] *)
Fixpoint rstrip (s : string) : string :=
  match s with
  | EmptyString => EmptyString
  | String c t =>
      match rstrip t with
      | EmptyString => if isspace c then EmptyString else String c EmptyString
      | String _ _ as r => String c r
      end
  end.

(** [s.strip()]: white space is removed at both ends, nowhere else. *)
Definition strip (s : string) : string := rstrip (lstrip s).

(** [s.split(sep)] for a separator of one character: the pieces between
    the separators, empty pieces included; one empty piece for the empty
    string. *)
Fixpoint split (sep : ascii) (s : string) : list string :=
  match s with
  | EmptyString => [EmptyString]
  | String c t =>
      if Ascii.eqb c sep then EmptyString :: split sep t
      else
        match split sep t with
        | [] => [String c EmptyString]
        | piece :: pieces => String c piece :: pieces
        end
  end.

(** [sep.join(l)] *)
Definition join_with (sep : string) (l : list string) : string :=
  String.concat sep l.

(** [s.count(c)] for one character. *)
Fixpoint count (c : ascii) (s : string) : nat :=
  match s with
  | EmptyString => 0
  | String c' t => (if Ascii.eqb c' c then 1 else 0) + count c t
  end.

(** Every character of [s] satisfies [p]. *)
Fixpoint all_chars (p : ascii -> bool) (s : string) : bool :=
  match s with
  | EmptyString => true
  | String c t => p c && all_chars p t
  end.

End PyStr.

(** The text of [read_kmers_from_file] after [file.read()]:
    [content.strip().split(',')]. *)
Definition kmers_of_text (content : string) : list string :=
  PyStr.split "," (PyStr.strip content).

Module Script.

(** Why reading a file failed: [open(name, 'r')] raised OSError (no such
    file, no permission), or the file was opened and [file.read()] raised
    UnicodeDecodeError on bytes that are no text in the encoding. *)
Inductive read_failure : Type :=
| OpenFailed
| DecodeFailed.

(** What the program sees of the outside.  [read_text name] is the text
    that [open(name, 'r')] and [file.read()] return, [None] when one of
    them raises, and then [read_error name] tells which.  [can_write name]
    tells whether [open(name, 'w')] succeeds, OSError being raised
    otherwise.  [can_print text] tells whether [print(text)] succeeds; it
    raises otherwise: UnicodeEncodeError when the encoding of standard
    output lacks a character of [text], OSError when standard output cannot
    be written. *)
Record world : Type := mkWorld {
  read_text : string -> option string;
  read_error : string -> read_failure;
  can_write : string -> bool;
  can_print : string -> bool
}.

(** UnicodeDecodeError is a subclass of ValueError; it is kept apart from
    the [ValueError] that [main] raises itself. *)
Inductive outcome (A : Type) : Type :=
| Returned (a : A)
| Raised (e : exn)
| RaisedOSError
| RaisedUnicodeDecodeError.

Arguments Returned {A} a.
Arguments Raised {A} e.
Arguments RaisedOSError {A}.
Arguments RaisedUnicodeDecodeError {A}.

Definition read_kmers_from_file (w : world) (filename : string)
  : outcome (list string) :=
  match read_text w filename with
  | None =>
      match read_error w filename with
      | OpenFailed => RaisedOSError
      | DecodeFailed => RaisedUnicodeDecodeError
      end
  | Some content => Returned (kmers_of_text content)
  end.

(** [main(input_file, output_file)] with its input and output: the outcome
    and the list of [(name, text)] written with [file.write].  Nothing is
    opened for writing before the pipeline has returned.  The text written
    is made of characters of the input, which was read with the same
    default encoding, so encoding it is not a source of failure here. *)
Definition main (w : world) (input_file output_file : string)
  : outcome unit * list (string * string) :=
  match read_kmers_from_file w input_file with
  | RaisedOSError => (RaisedOSError, [])
  | RaisedUnicodeDecodeError => (RaisedUnicodeDecodeError, [])
  | Raised e => (Raised e, [])
  | Returned kmers =>
      match main (fun _ => kmers) input_file with
      | Raise e => (Raised e, [])
      | Ok reconstructed_dna =>
          if can_write w output_file
          then (Returned tt, [(output_file, reconstructed_dna)])
          else (RaisedOSError, [])
      end
  end.

Definition usage : string :=
  "Uso: python dna_reconstruction.py <arquivo_de_entrada>".

Definition output_file : string := "KauaFarias.txt".

(** [f"Sequência reconstruída salva em {output_file}"]; the letters with
    accents are the code points 234 and 237. *)
Definition saved_message (output_file : string) : string :=
  ("Sequ" ++ String "234" ("ncia reconstru" ++ String "237"
     ("da salva em " ++ output_file)))%string.

(** How a run ends: normally, by [sys.exit(code)], or by an exception that
    nothing catches; [UncaughtPrintError] is the exception of a [print]
    that failed. *)
Inductive ending : Type :=
| Finished
| SysExit (code : Z)
| Uncaught (e : exn)
| UncaughtOSError
| UncaughtUnicodeDecodeError
| UncaughtPrintError.

Record run : Type := mkRun {
  stdout : list string;                 (* one entry per [print] *)
  run_end : ending;
  writes : list (string * string)       (* [(name, text)] per [file.write] *)
}.

(** The block under [if __name__ == "__main__":], for [sys.argv = argv].
    The success message is printed after [main] has returned, that is after
    the output file is written and closed. *)
Definition script (w : world) (argv : list string) : run :=
  if negb (Nat.eqb (List.length argv) 2)
  then
    if can_print w usage
    then mkRun [usage] (SysExit 1) []
    else mkRun [] UncaughtPrintError []
  else
    let input_file := nth 1 argv EmptyString in
    match main w input_file output_file with
    | (Returned _, ws) =>
        if can_print w (saved_message output_file)
        then mkRun [saved_message output_file] Finished ws
        else mkRun [] UncaughtPrintError ws
    | (Raised e, ws) => mkRun [] (Uncaught e) ws
    | (RaisedOSError, ws) => mkRun [] UncaughtOSError ws
    | (RaisedUnicodeDecodeError, ws) => mkRun [] UncaughtUnicodeDecodeError ws
    end.

End Script.

(** ** Notions for the further properties *)

(** The strings of [l], each once, in the order of their first occurrence. *)
Fixpoint first_occurrences (l : list string) : list string :=
  match l with
  | [] => []
  | x :: t => x :: filter (fun y => negb (String.eqb x y)) (first_occurrences t)
  end.

(** The key sequence after [d[k] = ...]: a new key goes last. *)
Definition insert_key (keys : list string) (k : string) : list string :=
  if existsb (String.eqb k) keys then keys else keys ++ [k].

(** Entries with value 0, as reading a missing key of a degree table
    creates them. *)
Definition zero_entries (ns : list Node) : degree_t := map (fun n => (n, 0%Z)) ns.

(** No successor stored in the graph is the empty string. *)
Definition successors_nonempty (graph : graph_t) : Prop :=
  Forall (fun kv => Forall (fun n => n <> EmptyString) (snd kv)) graph.

(** Kept by every iteration when no successor is empty: the nodes above
    the bottom of the stack and the nodes of the path, except the first
    node of the two together, are not empty. *)
Definition walk_nonempty (s : walk_state) : Prop :=
  successors_nonempty (st_graph s) /\
  Forall (fun n => n <> EmptyString) (tl (st_stack s ++ st_path s)).

(** Kept by every iteration: the keys the graph began with stay in place,
    and the keys behind them are nodes of the path that were no keys. *)
Definition walk_keys (graph0 : graph_t) (s : walk_state) : Prop :=
  exists added,
    dict_keys (st_graph s) = dict_keys graph0 ++ added /\
    Forall (fun n => In n (st_path s) /\ ~ In n (dict_keys graph0)) added.

(** A character that is neither white space nor a comma. *)
Definition plain (c : ascii) : bool :=
  negb (PyStr.isspace c) && negb (Ascii.eqb c ",").

(** * Properties *)

(** ** Tactics *)

(** Writes every [x :: l] as [[x] ++ l], in the goal and the hypotheses. *)
Ltac cons_to_app :=
  repeat match goal with
    | |- context [?x :: ?l] =>
        lazymatch l with
        | @nil _ => fail
        | _ => change (x :: l) with ([x] ++ l)
        end
    | H : context [?x :: ?l] |- _ =>
        lazymatch l with
        | @nil _ => fail
        | _ => change (x :: l) with ([x] ++ l) in H
        end
    end.

(** Permutations of lists of edges by counting occurrences. *)
Ltac perm_count :=
  let e := fresh "e" in
  apply (proj2 (Permutation_count_occ edge_dec _ _)); intros e;
  repeat match goal with
    | H : Permutation _ _ |- _ =>
        let H' := fresh "Hc" in
        pose proof (proj1 (Permutation_count_occ edge_dec _ _) H e) as H';
        clear H
    end;
  cons_to_app;
  repeat rewrite count_occ_app in *;
  lia.

(** ** Python lists *)

Lemma unsnoc_snoc {A : Type} (l : list A) (x : A) :
  Py.unsnoc (l ++ [x]) = Some (l, x).
Proof.
  induction l as [|a l IH]; simpl.
  - reflexivity.
  - rewrite IH. reflexivity.
Qed.

Lemma unsnoc_None {A : Type} (l : list A) :
  Py.unsnoc l = None -> l = [].
Proof.
  destruct l as [|a l]; simpl; [reflexivity|].
  destruct (Py.unsnoc l) as [[t y]|]; discriminate.
Qed.

Lemma unsnoc_Some {A : Type} (l l' : list A) (x : A) :
  Py.unsnoc l = Some (l', x) -> l = l' ++ [x].
Proof.
  revert l'. induction l as [|a l IH]; simpl; intros l' H.
  - discriminate.
  - destruct (Py.unsnoc l) as [[t y]|] eqn:E.
    + injection H as <- <-. simpl. f_equal. apply IH. reflexivity.
    + injection H as <- <-. apply unsnoc_None in E. subst l. reflexivity.
Qed.

(** ** Dictionaries *)

Section DictFacts.

Context {V : Type}.
Implicit Types (d : dict V) (k : string) (v : V).

Lemma dict_get_set_same d k v : dict_get (dict_set d k v) k = Some v.
Proof.
  induction d as [|[k' v'] d IH]; simpl.
  - rewrite String.eqb_refl. reflexivity.
  - destruct (String.eqb k' k) eqn:E; simpl; rewrite E; auto.
Qed.

Lemma dict_get_set_other d k k' v :
  k' <> k -> dict_get (dict_set d k v) k' = dict_get d k'.
Proof.
  intros Hne. induction d as [|[k0 v0] d IH]; simpl.
  - destruct (String.eqb_spec k k'); [congruence | reflexivity].
  - destruct (String.eqb_spec k0 k); simpl.
    + subst k0. destruct (String.eqb_spec k k'); [congruence | reflexivity].
    + destruct (String.eqb_spec k0 k'); [reflexivity | exact IH].
Qed.

Lemma dict_get_In_keys d k :
  dict_get d k <> None <-> In k (dict_keys d).
Proof.
  induction d as [|[k0 v0] d IH]; simpl.
  - split; [congruence | tauto].
  - destruct (String.eqb_spec k0 k).
    + split; [auto | congruence].
    + rewrite IH. split; [auto | intros [H|H]; [contradiction | exact H]].
Qed.

Lemma dict_get_None_keys d k :
  dict_get d k = None <-> ~ In k (dict_keys d).
Proof.
  rewrite <- dict_get_In_keys.
  destruct (dict_get d k); split; intros H; try congruence.
  exfalso. apply H. congruence.
Qed.

(** Setting a key that is already present keeps the key sequence. *)
Lemma dict_keys_set_present d k v :
  In k (dict_keys d) -> dict_keys (dict_set d k v) = dict_keys d.
Proof.
  induction d as [|[k0 v0] d IH]; simpl; intros H.
  - contradiction.
  - destruct (String.eqb_spec k0 k); simpl.
    + reflexivity.
    + f_equal. apply IH. destruct H; [contradiction | assumption].
Qed.

(** Setting a new key appends it. *)
Lemma dict_set_absent d k v :
  ~ In k (dict_keys d) -> dict_set d k v = d ++ [(k, v)].
Proof.
  induction d as [|[k0 v0] d IH]; simpl; intros H.
  - reflexivity.
  - destruct (String.eqb_spec k0 k).
    + exfalso. apply H. left. assumption.
    + f_equal. apply IH. intros Hin. apply H. right. assumption.
Qed.

Lemma getitem_set_upsert (f : V -> V) (dflt : V) d k :
  (let '(v, d1) := defaultdict_getitem dflt d k in dict_set d1 k (f v))
  = dict_upsert f dflt d k.
Proof.
  unfold defaultdict_getitem.
  induction d as [|[k0 v0] d IH]; simpl.
  - rewrite String.eqb_refl. reflexivity.
  - destruct (String.eqb_spec k0 k) as [->|Hne]; simpl.
    + rewrite String.eqb_refl. reflexivity.
    + destruct (dict_get d k) as [v|] eqn:E; simpl.
      * destruct (String.eqb_spec k0 k); [contradiction|]. f_equal. exact IH.
      * destruct (String.eqb_spec k0 k); [contradiction|]. simpl.
        destruct (String.eqb_spec k0 k); [contradiction|]. f_equal. exact IH.
Qed.

Lemma defaultdict_getitem_value (dflt : V) d k :
  fst (defaultdict_getitem dflt d k) = dict_peek dflt d k.
Proof.
  unfold defaultdict_getitem, dict_peek. destruct (dict_get d k); reflexivity.
Qed.

(** A read does not change what any reader sees. *)
Lemma defaultdict_getitem_peek (dflt : V) d k k' :
  dict_peek dflt (snd (defaultdict_getitem dflt d k)) k' = dict_peek dflt d k'.
Proof.
  unfold defaultdict_getitem, dict_peek.
  destruct (dict_get d k) eqn:E; simpl; [reflexivity|].
  destruct (String.eqb_spec k' k) as [->|Hne].
  - rewrite dict_get_set_same, E. reflexivity.
  - rewrite dict_get_set_other by assumption. reflexivity.
Qed.

End DictFacts.

(** ** build_de_bruijn_graph *)

Lemma graph_append_upsert (graph : graph_t) (prefix suffix : Node) :
  graph_append graph prefix suffix
  = dict_upsert (fun adj => adj ++ [suffix]) [] graph prefix.
Proof.
  exact (getitem_set_upsert (fun adj => adj ++ [suffix]) [] graph prefix).
Qed.

Lemma degree_incr_upsert (degree : degree_t) (n : Node) :
  degree_incr degree n = dict_upsert (fun v => (v + 1)%Z) 0%Z degree n.
Proof.
  exact (getitem_set_upsert (fun v => (v + 1)%Z) 0%Z degree n).
Qed.

Lemma edge_count_graph_append (graph : graph_t) (prefix suffix : Node) :
  edge_count (graph_append graph prefix suffix) = S (edge_count graph).
Proof.
  rewrite graph_append_upsert. unfold edge_count.
  induction graph as [|[k adj] g IH]; simpl.
  - reflexivity.
  - destruct (String.eqb k prefix); simpl.
    + rewrite length_app. simpl. lia.
    + rewrite IH. lia.
Qed.

Lemma degree_sum_incr (degree : degree_t) (n : Node) :
  degree_sum (degree_incr degree n) = (degree_sum degree + 1)%Z.
Proof.
  rewrite degree_incr_upsert. unfold degree_sum.
  induction degree as [|[k v] d IH]; simpl.
  - reflexivity.
  - destruct (String.eqb k n); simpl.
    + lia.
    + rewrite IH. lia.
Qed.

Lemma build_body_graph acc kmer :
  graph_of (build_body acc kmer)
  = graph_append (graph_of acc) (Py.slice_init kmer) (Py.slice_tail kmer).
Proof. destruct acc as [[g i] o]. reflexivity. Qed.

Lemma build_body_in_degree acc kmer :
  in_degree_of (build_body acc kmer)
  = degree_incr (in_degree_of acc) (Py.slice_tail kmer).
Proof. destruct acc as [[g i] o]. reflexivity. Qed.

Lemma build_body_out_degree acc kmer :
  out_degree_of (build_body acc kmer)
  = degree_incr (out_degree_of acc) (Py.slice_init kmer).
Proof. destruct acc as [[g i] o]. reflexivity. Qed.

(** The three totals grow by one per k-mer, from any accumulator. *)
Lemma build_loop_totals (kmers : list string) acc :
  let r := fold_left build_body kmers acc in
  edge_count (graph_of r) = edge_count (graph_of acc) + List.length kmers /\
  degree_sum (in_degree_of r)
  = (degree_sum (in_degree_of acc) + Z.of_nat (List.length kmers))%Z /\
  degree_sum (out_degree_of r)
  = (degree_sum (out_degree_of acc) + Z.of_nat (List.length kmers))%Z.
Proof.
  revert acc. induction kmers as [|kmer kmers IH]; intros acc.
  - simpl. repeat split; lia.
  - cbn [fold_left List.length].
    destruct (IH (build_body acc kmer)) as (Hg & Hi & Ho).
    cbv zeta. rewrite Hg, Hi, Ho.
    rewrite build_body_graph, build_body_in_degree, build_body_out_degree.
    rewrite edge_count_graph_append, !degree_sum_incr.
    repeat split; lia.
Qed.

(** C6. Right after [build_de_bruijn_graph] returns, the out-degrees and the
    in-degrees both sum to the number of input k-mers, and so does the
    number of edges stored in the adjacency structure. *)
Theorem build_degree_sum_invariant (kmers : list string) :
  let r := build_de_bruijn_graph kmers in
  degree_sum (out_degree_of r) = Z.of_nat (List.length kmers) /\
  degree_sum (in_degree_of r) = Z.of_nat (List.length kmers) /\
  edge_count (graph_of r) = List.length kmers /\
  degree_sum (out_degree_of r) = degree_sum (in_degree_of r).
Proof.
  destruct (build_loop_totals kmers ([], [], [])) as (Hg & Hi & Ho).
  cbv zeta. unfold build_de_bruijn_graph.
  rewrite Hg, Hi, Ho. cbn. repeat split; lia.
Qed.

(** ** find_starting_node *)

Lemma find_snoc {A : Type} (f : A -> bool) (l : list A) (x : A) :
  find f (l ++ [x])
  = match find f l with
    | Some y => Some y
    | None => if f x then Some x else None
    end.
Proof.
  induction l as [|a l IH]; simpl.
  - reflexivity.
  - destruct (f a); [reflexivity | exact IH].
Qed.

Lemma find_pointwise {A : Type} (f g : A -> bool) (l : list A) :
  (forall x, f x = g x) -> find f l = find g l.
Proof.
  intros H. induction l as [|a l IH]; simpl.
  - reflexivity.
  - rewrite H, IH. reflexivity.
Qed.

Lemma degree_after_getitem (d : degree_t) (k n : Node) :
  degree (snd (defaultdict_getitem 0%Z d k)) n = degree d n.
Proof. apply defaultdict_getitem_peek. Qed.

(** The scan returns the first key with one more outgoing than incoming
    edge; without such a key it returns the last balanced key it met, or
    the candidate it started with. *)
Lemma find_starting_node_loop_spec (nodes : list Node) :
  forall (start_node : option Node) (in_degree out_degree : degree_t),
    fst (fst (find_starting_node_loop nodes start_node in_degree out_degree))
    = match find (is_source in_degree out_degree) nodes with
      | Some n => Some n
      | None =>
          match find (is_balanced in_degree out_degree) (rev nodes) with
          | Some n => Some n
          | None => start_node
          end
      end.
Proof.
  induction nodes as [|n rest IH]; intros start_node ind outd.
  - reflexivity.
  - cbn [find_starting_node_loop find rev].
    pose proof (defaultdict_getitem_value 0%Z outd n) as Ho.
    pose proof (defaultdict_getitem_value 0%Z ind n) as Hi.
    pose proof (degree_after_getitem outd n) as Po.
    pose proof (degree_after_getitem ind n) as Pi.
    destruct (defaultdict_getitem 0%Z outd n) as [o outd1].
    destruct (defaultdict_getitem 0%Z ind n) as [i ind1].
    simpl in Ho, Hi, Po, Pi. subst o i.
    unfold is_source at 1. unfold degree at 1 2.
    destruct (dict_peek 0%Z outd n - dict_peek 0%Z ind n =? 1)%Z; [reflexivity|].
    rewrite IH. rewrite find_snoc.
    rewrite (find_pointwise (is_source ind1 outd1) (is_source ind outd))
      by (intros x; unfold is_source; rewrite Po, Pi; reflexivity).
    rewrite (find_pointwise (is_balanced ind1 outd1) (is_balanced ind outd))
      by (intros x; unfold is_balanced; rewrite Po, Pi; reflexivity).
    destruct (find (is_source ind outd) rest); [reflexivity|].
    destruct (find (is_balanced ind outd) (rev rest)); [reflexivity|].
    unfold is_balanced, degree.
    destruct (dict_peek 0%Z ind n =? dict_peek 0%Z outd n)%Z; reflexivity.
Qed.

Lemma find_starting_node_spec (graph : graph_t) (in_degree out_degree : degree_t) :
  find_starting_node graph in_degree out_degree
  = match find (is_source in_degree out_degree) (dict_keys graph) with
    | Some n => Some n
    | None => last_balanced graph in_degree out_degree
    end.
Proof.
  unfold find_starting_node, find_starting_node_full, last_balanced.
  rewrite find_starting_node_loop_spec.
  destruct (find (is_source in_degree out_degree) (dict_keys graph)); [reflexivity|].
  destruct (find (is_balanced in_degree out_degree) (rev (dict_keys graph)));
    reflexivity.
Qed.

(** The node that is returned is a key of the graph. *)
Lemma find_starting_node_In (graph : graph_t) (in_degree out_degree : degree_t)
  (n : Node) :
  find_starting_node graph in_degree out_degree = Some n ->
  In n (dict_keys graph).
Proof.
  rewrite find_starting_node_spec. unfold last_balanced.
  destruct (find (is_source _ _) _) eqn:E.
  - intros [= <-]. apply find_some in E. tauto.
  - intros H. apply find_some in H. rewrite <- in_rev in H. tauto.
Qed.

(** C3, as the code behaves.  When no key of the graph has out-degree minus
    in-degree equal to 1, [find_starting_node] returns the LAST balanced key
    in scan order (every balanced key overwrites the saved candidate), and
    [None] when no key is balanced. *)
Theorem find_starting_node_fallback_last_balanced
  (graph : graph_t) (in_degree out_degree : degree_t) :
  (forall n, In n (dict_keys graph) ->
             (degree out_degree n - degree in_degree n)%Z <> 1%Z) ->
  find_starting_node graph in_degree out_degree
  = last_balanced graph in_degree out_degree.
Proof.
  intros Hno. rewrite find_starting_node_spec.
  destruct (find (is_source in_degree out_degree) (dict_keys graph)) eqn:E;
    [|reflexivity].
  apply find_some in E. destruct E as [Hin Hsrc].
  unfold is_source in Hsrc. apply Z.eqb_eq in Hsrc.
  exfalso. exact (Hno _ Hin Hsrc).
Qed.

Lemma cycle_kmers_no_source :
  let r := build_de_bruijn_graph cycle_kmers in
  forall n, In n (dict_keys (graph_of r)) ->
            (degree (out_degree_of r) n - degree (in_degree_of r) n)%Z <> 1%Z.
Proof.
  cbv zeta. intros n Hin. cbn in Hin.
  destruct Hin as [<-|[<-|[]]]; vm_compute; discriminate.
Qed.

Lemma find_starting_node_fallback_last_balanced_witness :
  let r := build_de_bruijn_graph cycle_kmers in
  find_starting_node (graph_of r) (in_degree_of r) (out_degree_of r)
  = last_balanced (graph_of r) (in_degree_of r) (out_degree_of r).
Proof.
  cbv zeta.
  apply (find_starting_node_fallback_last_balanced
           (graph_of (build_de_bruijn_graph cycle_kmers))
           (in_degree_of (build_de_bruijn_graph cycle_kmers))
           (out_degree_of (build_de_bruijn_graph cycle_kmers))).
  exact cycle_kmers_no_source.
Defined.

(** C3 as written fails: on the graph of ["ABA"; "BAB"] no key has
    out-degree minus in-degree 1, the first balanced key is "AB", and the
    function returns "BA". *)
Lemma find_starting_node_not_first_balanced :
  ~ (forall (graph : graph_t) (in_degree out_degree : degree_t),
        (forall n, In n (dict_keys graph) ->
                   (degree out_degree n - degree in_degree n)%Z <> 1%Z) ->
        find_starting_node graph in_degree out_degree
        = first_balanced graph in_degree out_degree).
Proof.
  intros H.
  specialize (H (graph_of (build_de_bruijn_graph cycle_kmers))
                (in_degree_of (build_de_bruijn_graph cycle_kmers))
                (out_degree_of (build_de_bruijn_graph cycle_kmers))
                cycle_kmers_no_source).
  vm_compute in H. discriminate.
Qed.

(** ** The loop of reconstruct_dna *)

Lemma walk_step_sound (s s' : walk_state) :
  walk_step s = Some s' -> walk_step_rel s s'.
Proof.
  destruct s as [g stack path]. unfold walk_step. simpl.
  destruct (Py.unsnoc stack) as [[below current]|] eqn:Es; [|discriminate].
  apply unsnoc_Some in Es. subst stack.
  unfold defaultdict_getitem.
  destruct (dict_get g current) as [adj|] eqn:Eg.
  - destruct (Py.unsnoc adj) as [[adj' next_node]|] eqn:Ea.
    + apply unsnoc_Some in Ea. subst adj. intros [= <-].
      apply step_push. exact Eg.
    + apply unsnoc_None in Ea. subst adj. intros [= <-].
      apply step_pop. exact Eg.
  - simpl. intros [= <-]. apply step_pop_new. exact Eg.
Qed.

Lemma walk_step_complete (s s' : walk_state) :
  walk_step_rel s s' -> walk_step s = Some s'.
Proof.
  intros H. destruct H as [g below current adj next_node path Hg
                          | g below current path Hg
                          | g below current path Hg];
    unfold walk_step, defaultdict_getitem; simpl;
    rewrite unsnoc_snoc, Hg.
  - rewrite unsnoc_snoc. reflexivity.
  - reflexivity.
  - reflexivity.
Qed.

Lemma walk_step_None (s : walk_state) :
  walk_step s = None <-> st_stack s = [].
Proof.
  unfold walk_step. split.
  - destruct (Py.unsnoc (st_stack s)) as [[below current]|] eqn:E.
    + destruct (defaultdict_getitem [] (st_graph s) current) as [adj g1].
      destruct (Py.unsnoc adj) as [[adj' nxt]|]; discriminate.
    + intros _. apply unsnoc_None. exact E.
  - intros ->. reflexivity.
Qed.

(** *** The measure *)

Lemma edge_count_set (graph : graph_t) (k : Node) (adj : list Node) :
  edge_count (dict_set graph k adj) + List.length (dict_peek [] graph k)
  = edge_count graph + List.length adj.
Proof.
  unfold edge_count, dict_peek.
  induction graph as [|[k0 a0] g IH]; simpl.
  - lia.
  - destruct (String.eqb k0 k); simpl.
    + lia.
    + destruct (dict_get g k); simpl in *; lia.
Qed.

(** Every iteration either removes one edge and pushes one node, or keeps
    the edges and pops one node. *)
Lemma walk_step_rel_counts (s s' : walk_state) :
  walk_step_rel s s' ->
  (edge_count (st_graph s') + 1 = edge_count (st_graph s) /\
   List.length (st_stack s') = List.length (st_stack s) + 1 /\
   st_path s' = st_path s)
  \/
  (edge_count (st_graph s') = edge_count (st_graph s) /\
   List.length (st_stack s') + 1 = List.length (st_stack s) /\
   List.length (st_path s') = List.length (st_path s) + 1).
Proof.
  intros H.
  destruct H as [g below current adj next_node path Hg
                | g below current path Hg
                | g below current path Hg]; simpl.
  - left. pose proof (edge_count_set g current adj) as E.
    unfold dict_peek in E. rewrite Hg in E.
    rewrite !length_app in *. simpl in *. repeat split; lia.
  - right. rewrite length_app. simpl. repeat split; lia.
  - right. pose proof (edge_count_set g current []) as E.
    unfold dict_peek in E. rewrite Hg in E.
    rewrite length_app. simpl in *. repeat split; lia.
Qed.

Lemma walk_step_measure (s s' : walk_state) :
  walk_step s = Some s' -> walk_measure s = S (walk_measure s').
Proof.
  intros H. apply walk_step_sound, walk_step_rel_counts in H.
  unfold walk_measure. lia.
Qed.

Lemma walk_steps_measure (n : nat) (s s' : walk_state) :
  walk_steps n s s' -> walk_measure s = n + walk_measure s'.
Proof.
  induction 1 as [s|n s s1 s' Hstep _ IH].
  - reflexivity.
  - apply walk_step_measure in Hstep. lia.
Qed.

(** *** Running the loop *)

Lemma walk_loop_exit (fuel : nat) (s : walk_state) :
  walk_step s = None -> walk_loop fuel s = s.
Proof. intros H. destruct fuel; simpl; [|rewrite H]; reflexivity. Qed.

Lemma walk_steps_loop (n : nat) (s s' : walk_state) :
  walk_steps n s s' -> forall m, walk_loop (n + m) s = walk_loop m s'.
Proof.
  induction 1 as [s|n s s1 s' Hstep _ IH]; intros m.
  - reflexivity.
  - simpl. rewrite Hstep. apply IH.
Qed.

Lemma walk_run_loop (n : nat) (s s' : walk_state) :
  walk_run n s s' -> forall fuel, n <= fuel -> walk_loop fuel s = s'.
Proof.
  intros [Hsteps Hexit] fuel Hle.
  replace fuel with (n + (fuel - n)) by lia.
  rewrite (walk_steps_loop _ _ _ Hsteps). apply walk_loop_exit. exact Hexit.
Qed.

Lemma walk_steps_trans (n m : nat) (s1 s2 s3 : walk_state) :
  walk_steps n s1 s2 -> walk_steps m s2 s3 -> walk_steps (n + m) s1 s3.
Proof.
  induction 1 as [s|n s s1 s' Hstep _ IH]; intros H2.
  - exact H2.
  - simpl. eapply steps_cons; [exact Hstep | apply IH; exact H2].
Qed.

(** With the measure as fuel the loop is never cut short: it stops because
    the stack is empty. *)
Lemma walk_loop_runs (fuel : nat) :
  forall s, walk_measure s <= fuel ->
            exists n, n <= walk_measure s /\ walk_run n s (walk_loop fuel s).
Proof.
  induction fuel as [|fuel IH]; intros s Hle.
  - exists 0. split; [lia|]. split; [apply steps_refl|]. simpl.
    apply walk_step_None. unfold walk_measure in Hle.
    destruct (st_stack s); [reflexivity | simpl in Hle; lia].
  - simpl. destruct (walk_step s) as [s1|] eqn:E.
    + pose proof (walk_step_measure _ _ E) as Hm.
      destruct (IH s1) as (n & Hn & Hsteps & Hexit); [lia|].
      exists (S n). split; [lia|]. split; [|exact Hexit].
      eapply steps_cons; eassumption.
    + exists 0. split; [lia|]. split; [apply steps_refl | exact E].
Qed.

Lemma walk_final_run (graph : graph_t) (start_node : Node) :
  exists n, n <= 2 * edge_count graph + 1 /\
            walk_run n (walk_init graph start_node) (walk_final graph start_node).
Proof.
  destruct (walk_loop_runs (walk_measure (walk_init graph start_node))
              (walk_init graph start_node)) as (n & Hn & Hrun); [lia|].
  exists n. split; [|exact Hrun].
  unfold walk_measure, walk_init in Hn. simpl in Hn. lia.
Qed.

Lemma walk_final_stack (graph : graph_t) (start_node : Node) :
  st_stack (walk_final graph start_node) = [].
Proof.
  destruct (walk_final_run graph start_node) as (n & _ & _ & Hexit).
  apply walk_step_None. exact Hexit.
Qed.

(** Induction principle for properties kept by every iteration. *)
Lemma walk_steps_invariant (P : walk_state -> Prop) :
  (forall s s', P s -> walk_step_rel s s' -> P s') ->
  forall n s s', walk_steps n s s' -> P s -> P s'.
Proof.
  intros Hstep. induction 1 as [s|n s s1 s' Hs _ IH]; intros HP.
  - exact HP.
  - apply IH. eapply Hstep; [exact HP | apply walk_step_sound; exact Hs].
Qed.

Lemma walk_final_invariant (P : walk_state -> Prop)
  (graph : graph_t) (start_node : Node) :
  (forall s s', P s -> walk_step_rel s s' -> P s') ->
  P (walk_init graph start_node) -> P (walk_final graph start_node).
Proof.
  intros Hstep Hinit.
  destruct (walk_final_run graph start_node) as (n & _ & Hsteps & _).
  exact (walk_steps_invariant P Hstep _ _ _ Hsteps Hinit).
Qed.

(** C9. The loop of [reconstruct_dna] terminates for every graph and every
    start node: it exits, with an empty stack, after at most
    [2 * edges + 1] iterations.  Every iteration that does not exit either
    removes one edge and grows the stack by one node, or leaves the edges
    alone and shrinks the stack by one node; so the stack grows only when
    an edge is removed. *)
Theorem reconstruct_loop_terminates (graph : graph_t) (start_node : Node) :
  (exists n,
      n <= 2 * edge_count graph + 1 /\
      walk_run n (walk_init graph start_node) (walk_final graph start_node) /\
      st_stack (walk_final graph start_node) = []) /\
  (forall s : walk_state,
      match walk_step s with
      | None => st_stack s = []
      | Some s' =>
          (edge_count (st_graph s') + 1 = edge_count (st_graph s) /\
           List.length (st_stack s') = List.length (st_stack s) + 1)
          \/
          (edge_count (st_graph s') = edge_count (st_graph s) /\
           List.length (st_stack s') + 1 = List.length (st_stack s))
      end).
Proof.
  split.
  - destruct (walk_final_run graph start_node) as (n & Hn & Hrun).
    exists n. repeat split; try assumption; try apply Hrun.
    apply walk_final_stack.
  - intros s. destruct (walk_step s) as [s'|] eqn:E.
    + apply walk_step_sound, walk_step_rel_counts in E. tauto.
    + apply walk_step_None. exact E.
Qed.

(** ** reconstruct_dna *)

(** C10. When the adjacency list of the start node is empty or absent,
    the loop exits after a single iteration (which pops the start node) and
    [reconstruct_dna] returns the start node itself; the graph is left as
    it was, up to the empty entry that reading a missing key creates. *)
Theorem reconstruct_dna_start_without_edges (graph : graph_t) (start_node : Node) :
  dict_get graph start_node = None \/ dict_get graph start_node = Some [] ->
  walk_run 1 (walk_init graph start_node) (walk_final graph start_node) /\
  reconstruct_dna graph start_node
  = (snd (defaultdict_getitem [] graph start_node), Ok start_node).
Proof.
  intros Hadj.
  set (s1 := mkState (snd (defaultdict_getitem [] graph start_node)) []
                     [start_node]).
  assert (Hstep : walk_step (walk_init graph start_node) = Some s1).
  { apply walk_step_complete. unfold walk_init, s1, defaultdict_getitem.
    destruct Hadj as [Hg|Hg]; rewrite Hg; simpl.
    - exact (step_pop_new graph [] start_node [] Hg).
    - exact (step_pop graph [] start_node [] Hg). }
  assert (Hrun : walk_run 1 (walk_init graph start_node) s1).
  { split.
    - eapply steps_cons; [exact Hstep | apply steps_refl].
    - reflexivity. }
  assert (Hfinal : walk_final graph start_node = s1).
  { unfold walk_final. apply (walk_run_loop 1); [exact Hrun|].
    unfold walk_measure, walk_init. simpl. lia. }
  split.
  - rewrite Hfinal. exact Hrun.
  - unfold reconstruct_dna. cbv zeta. rewrite Hfinal. reflexivity.
Qed.

Lemma reconstruct_dna_start_without_edges_witness :
  reconstruct_dna [("A", []); ("B", ["A"])] "A"
  = ([("A", []); ("B", ["A"])], Ok "A").
Proof.
  apply (reconstruct_dna_start_without_edges [("A", []); ("B", ["A"])] "A").
  right. reflexivity.
Defined.

Lemma walk_inv_init (graph : graph_t) (start_node : Node) :
  walk_inv graph start_node (walk_init graph start_node).
Proof.
  split; simpl.
  - intros n [].
  - exists []. reflexivity.
  - intros n. exists []. rewrite app_nil_r. reflexivity.
  - lia.
Qed.

Lemma walk_inv_step (graph0 : graph_t) (start_node : Node) (s s' : walk_state) :
  walk_inv graph0 start_node s -> walk_step_rel s s' ->
  walk_inv graph0 start_node s'.
Proof.
  intros [Hdone Hfirst Hprefix Hcount] Hstep.
  pose proof (walk_step_rel_counts _ _ Hstep) as Hc.
  destruct Hstep as [g below current adj next_node path Hg
                    | g below current path Hg
                    | g below current path Hg]; simpl in *;
    rewrite ?length_app in Hc, Hcount; simpl in Hc, Hcount.
  - split; simpl; rewrite ?length_app; simpl.
    + intros n Hin. specialize (Hdone n Hin).
      rewrite dict_get_set_other; [exact Hdone|].
      intros ->. rewrite Hg in Hdone. injection Hdone as Hd.
      destruct adj; discriminate.
    + destruct Hfirst as [rest Hrest].
      destruct below as [|b below]; simpl in *.
      * injection Hrest as -> _. eexists. reflexivity.
      * injection Hrest as -> _. eexists. reflexivity.
    + intros n. destruct (Hprefix n) as [consumed Hn].
      unfold dict_peek in *.
      destruct (String.eqb_spec n current) as [->|Hne].
      * rewrite dict_get_set_same. rewrite Hg in Hn.
        exists (next_node :: consumed). rewrite Hn, <- app_assoc. reflexivity.
      * rewrite dict_get_set_other by assumption. exists consumed. exact Hn.
    + lia.
  - split; simpl.
    + intros n [<-|Hin]; [exact Hg | exact (Hdone n Hin)].
    + destruct Hfirst as [rest Hrest]. exists rest.
      rewrite <- Hrest, <- app_assoc. reflexivity.
    + exact Hprefix.
    + lia.
  - split; simpl.
    + intros n [<-|Hin]; [apply dict_get_set_same|].
      specialize (Hdone n Hin).
      rewrite dict_get_set_other; [exact Hdone|].
      intros ->. congruence.
    + destruct Hfirst as [rest Hrest]. exists rest.
      rewrite <- Hrest, <- app_assoc. reflexivity.
    + intros n. destruct (Hprefix n) as [consumed Hn].
      exists consumed. unfold dict_peek in *.
      destruct (String.eqb_spec n current) as [->|Hne].
      * rewrite dict_get_set_same. rewrite Hg in Hn. exact Hn.
      * rewrite dict_get_set_other by assumption. exact Hn.
    + lia.
Qed.

Lemma walk_inv_final (graph : graph_t) (start_node : Node) :
  walk_inv graph start_node (walk_final graph start_node).
Proof.
  apply (walk_final_invariant (walk_inv graph start_node)).
  - apply walk_inv_step.
  - apply walk_inv_init.
Qed.

(** The path handed to the string assembly starts with the start node and
    has one more node than edges were removed. *)
Lemma walk_final_path (graph : graph_t) (start_node : Node) :
  exists rest,
    st_path (walk_final graph start_node) = start_node :: rest /\
    edge_count graph
    = edge_count (st_graph (walk_final graph start_node)) + List.length rest.
Proof.
  destruct (walk_inv_final graph start_node) as [_ [rest Hrest] _ Hcount].
  rewrite walk_final_stack in Hrest, Hcount. simpl in Hrest, Hcount.
  exists rest. split; [exact Hrest|]. rewrite Hrest in Hcount. simpl in Hcount. lia.
Qed.


(** ** Strings *)

Lemma str_length_append (s1 s2 : string) :
  String.length (s1 ++ s2)%string = String.length s1 + String.length s2.
Proof. induction s1 as [|c s1 IH]; simpl; [|rewrite IH]; reflexivity. Qed.

Lemma str_append_nil_r (s : string) : (s ++ "")%string = s.
Proof. induction s as [|c s IH]; simpl; [|rewrite IH]; reflexivity. Qed.

Lemma str_append_assoc (s1 s2 s3 : string) :
  ((s1 ++ s2) ++ s3)%string = (s1 ++ s2 ++ s3)%string.
Proof. induction s1 as [|c s1 IH]; simpl; [|rewrite IH]; reflexivity. Qed.

Lemma slice_init_length (s : string) :
  String.length (Py.slice_init s) = String.length s - 1.
Proof.
  induction s as [|c s IH]; [reflexivity|].
  destruct s as [|c' s]; [reflexivity|].
  change (Py.slice_init (String c (String c' s)))
    with (String c (Py.slice_init (String c' s))).
  cbn [String.length] in *. lia.
Qed.

Lemma slice_tail_length (s : string) :
  String.length (Py.slice_tail s) = String.length s - 1.
Proof. destruct s; simpl; lia. Qed.

Lemma index_last_nonempty (s : string) :
  s <> "" -> exists c, Py.index_last s = Ok (String c "").
Proof.
  induction s as [|c s IH]; intros Hne; [congruence|].
  destruct s as [|c' s].
  - exists c. reflexivity.
  - destruct IH as [x Hx]; [discriminate|]. exists x. exact Hx.
Qed.

Lemma join_cons (x : string) (l : list string) :
  Py.join (x :: l) = (x ++ Py.join l)%string.
Proof.
  unfold Py.join. destruct l as [|y l]; simpl.
  - rewrite str_append_nil_r. reflexivity.
  - reflexivity.
Qed.

Lemma join_length (l : list string) :
  String.length (Py.join l) = list_sum (map String.length l).
Proof.
  induction l as [|x l IH]; [reflexivity|].
  rewrite join_cons, str_length_append, IH. reflexivity.
Qed.

(** *** The list comprehension over the path *)

Lemma last_chars_nonempty_nodes (path : list Node) :
  Forall (fun n => n <> "") path ->
  exists cs, last_chars path = Ok cs /\
             List.length cs = List.length path /\
             Forall (fun c => String.length c = 1) cs.
Proof.
  induction 1 as [|n path Hn _ IH].
  - exists []. repeat split. constructor.
  - destruct IH as (cs & Hcs & Hlen & Hall).
    destruct (index_last_nonempty n Hn) as [c Hc].
    exists (String c "" :: cs). simpl. rewrite Hc, Hcs. simpl.
    repeat split; [lia|]. constructor; [reflexivity | exact Hall].
Qed.

Lemma last_chars_empty_node (n : Node) (path : list Node) :
  n = "" -> last_chars (n :: path) = Raise IndexError.
Proof. intros ->. reflexivity. Qed.

Lemma list_sum_all_one (cs : list string) :
  Forall (fun c => String.length c = 1) cs ->
  list_sum (map String.length cs) = List.length cs.
Proof.
  induction 1 as [|c cs Hc _ IH]; simpl; [reflexivity|]. rewrite Hc, IH. reflexivity.
Qed.

(** *** Node lengths *)

Lemma graph_nodes_len_get j (graph : graph_t) (k : Node) (adj : list Node) :
  graph_nodes_len j graph -> dict_get graph k = Some adj ->
  Forall (fun n => String.length n = j) adj.
Proof.
  induction 1 as [|[k0 a0] g [Hk Ha] _ IH]; simpl; [discriminate|].
  destruct (String.eqb k0 k); [intros [= <-]; exact Ha | exact IH].
Qed.

Lemma graph_nodes_len_keys j (graph : graph_t) (k : Node) :
  graph_nodes_len j graph -> In k (dict_keys graph) -> String.length k = j.
Proof.
  intros H Hin. unfold dict_keys in Hin. apply in_map_iff in Hin.
  destruct Hin as ([k0 a0] & <- & Hin).
  unfold graph_nodes_len in H. rewrite Forall_forall in H.
  apply (H _ Hin).
Qed.

Lemma graph_nodes_len_set j (graph : graph_t) (k : Node) (adj : list Node) :
  graph_nodes_len j graph -> String.length k = j ->
  Forall (fun n => String.length n = j) adj ->
  graph_nodes_len j (dict_set graph k adj).
Proof.
  intros H Hk Hadj. induction H as [|[k0 a0] g [Hk0 Ha0] Hg IH]; simpl.
  - constructor; [split; assumption | constructor].
  - destruct (String.eqb k0 k).
    + constructor; [split; assumption | exact Hg].
    + constructor; [split; assumption | exact IH].
Qed.

Lemma graph_nodes_len_append j (graph : graph_t) (prefix suffix : Node) :
  graph_nodes_len j graph -> String.length prefix = j -> String.length suffix = j ->
  graph_nodes_len j (graph_append graph prefix suffix).
Proof.
  intros H Hp Hs. rewrite graph_append_upsert.
  induction H as [|[k0 a0] g [Hk0 Ha0] Hg IH]; simpl.
  - repeat constructor; assumption.
  - destruct (String.eqb k0 prefix).
    + constructor; [|exact Hg]. split; [assumption|].
      apply Forall_app. split; [assumption | repeat constructor; assumption].
    + constructor; [split; assumption | exact IH].
Qed.

Lemma build_loop_nodes_len (k : nat) (kmers : list string) :
  Forall (fun kmer => String.length kmer = k) kmers ->
  forall acc, graph_nodes_len (k - 1) (graph_of acc) ->
              graph_nodes_len (k - 1) (graph_of (fold_left build_body kmers acc)).
Proof.
  induction 1 as [|kmer kmers Hk _ IH]; intros acc Hacc; simpl.
  - exact Hacc.
  - apply IH. rewrite build_body_graph.
    apply graph_nodes_len_append; [exact Hacc| |].
    + rewrite slice_init_length, Hk. reflexivity.
    + rewrite slice_tail_length, Hk. reflexivity.
Qed.

Lemma build_nodes_len (k : nat) (kmers : list string) :
  Forall (fun kmer => String.length kmer = k) kmers ->
  graph_nodes_len (k - 1) (graph_of (build_de_bruijn_graph kmers)).
Proof.
  intros H. apply (build_loop_nodes_len k kmers H). constructor.
Qed.

Lemma walk_nodes_len_step j (s s' : walk_state) :
  walk_nodes_len j s -> walk_step_rel s s' -> walk_nodes_len j s'.
Proof.
  intros (Hg & Hs & Hp) Hstep.
  destruct Hstep as [g below current adj next_node path Hget
                    | g below current path Hget
                    | g below current path Hget]; simpl in *;
    apply Forall_app in Hs; destruct Hs as [Hbelow Hcur];
    pose proof (Forall_inv Hcur) as Hc; simpl in Hc.
  - pose proof (graph_nodes_len_get _ _ _ _ Hg Hget) as Hadj.
    apply Forall_app in Hadj. destruct Hadj as [Hadj Hnext].
    repeat split.
    + apply graph_nodes_len_set; assumption.
    + apply Forall_app. split; [|exact Hnext].
      apply Forall_app. split; assumption.
    + exact Hp.
  - repeat split; [assumption | assumption |]. constructor; assumption.
  - repeat split; [|assumption|constructor; assumption].
    apply graph_nodes_len_set; [assumption | assumption | constructor].
Qed.

Lemma walk_final_nodes_len j (graph : graph_t) (start_node : Node) :
  graph_nodes_len j graph -> String.length start_node = j ->
  walk_nodes_len j (walk_final graph start_node).
Proof.
  intros Hg Hs. apply (walk_final_invariant (walk_nodes_len j)).
  - apply walk_nodes_len_step.
  - repeat split; simpl; [exact Hg | repeat constructor; exact Hs | constructor].
Qed.

(** C5. Take [N] k-mers, all of length [k], and let the walk from the
    selected start node consume every edge of their graph.  Then a string
    returned by [reconstruct_dna] has length [N + k - 1]; and for [k >= 2]
    a string is returned (for [k < 2] the nodes are empty strings and
    [node[-1]] raises IndexError instead). *)
Theorem reconstruct_dna_length (k : nat) (kmers : list string) (start_node : Node) :
  Forall (fun kmer => String.length kmer = k) kmers ->
  let r := build_de_bruijn_graph kmers in
  find_starting_node (graph_of r) (in_degree_of r) (out_degree_of r)
  = Some start_node ->
  edge_count (fst (reconstruct_dna (graph_of r) start_node)) = 0 ->
  (forall dna, snd (reconstruct_dna (graph_of r) start_node) = Ok dna ->
               String.length dna = List.length kmers + k - 1) /\
  (2 <= k -> exists dna, snd (reconstruct_dna (graph_of r) start_node) = Ok dna).
Proof.
  intros Hlen r Hstart Hall.
  pose proof (build_nodes_len k kmers Hlen) as Hg. fold r in Hg.
  pose proof (find_starting_node_In _ _ _ _ Hstart) as Hin.
  pose proof (graph_nodes_len_keys _ _ _ Hg Hin) as Hs.
  destruct (walk_final_nodes_len _ _ _ Hg Hs) as (_ & _ & Hpath).
  destruct (walk_final_path (graph_of r) start_node) as (rest & Hrest & Hcount).
  destruct (build_degree_sum_invariant kmers) as (_ & _ & Hedges & _).
  fold r in Hedges.
  unfold reconstruct_dna in *. cbv zeta in *. simpl fst in Hall. simpl snd.
  rewrite Hall, Hedges in Hcount. simpl in Hcount.
  rewrite Hrest in *. apply Forall_inv_tail in Hpath. simpl assemble.
  destruct (Nat.eq_dec (k - 1) 0) as [Hz|Hnz].
  - (* empty nodes: the comprehension raises at the first of them *)
    assert (Hkm : kmers <> []).
    { intros ->. subst r. simpl in Hin. exact Hin. }
    destruct rest as [|n rest'].
    { destruct kmers; [congruence | simpl in Hcount; lia]. }
    rewrite (last_chars_empty_node n rest').
    + split; [intros dna [=] | intros Hk; lia].
    + apply Forall_inv in Hpath. rewrite Hz in Hpath.
      destruct n; [reflexivity | discriminate].
  - destruct (last_chars_nonempty_nodes rest) as (cs & Hcs & Hcslen & Hone).
    { eapply Forall_impl; [|exact Hpath]. intros n Hn ->. simpl in Hn. lia. }
    rewrite Hcs. simpl bind.
    assert (Hdna : String.length (Py.join (start_node :: cs))
                   = List.length kmers + k - 1).
    { rewrite join_length. simpl. rewrite (list_sum_all_one cs Hone). lia. }
    split.
    + intros dna [= <-]. exact Hdna.
    + intros _. eexists. reflexivity.
Qed.

Lemma reconstruct_dna_length_witness :
  exists dna,
    snd (reconstruct_dna (graph_of (build_de_bruijn_graph linear_kmers)) "AA")
    = Ok dna /\
    String.length dna = 6.
Proof.
  assert (Hlen : Forall (fun kmer => String.length kmer = 3) linear_kmers)
    by (repeat constructor).
  destruct (reconstruct_dna_length 3 linear_kmers "AA" Hlen eq_refl eq_refl)
    as [Hsize Hreturns].
  destruct (Hreturns (le_S 2 2 (le_n 2))) as [dna Hdna].
  exists dna. split; [exact Hdna | exact (Hsize dna Hdna)].
Defined.

(** ** Scenarios *)

(** C2. On ["AAB"; "ABC"; "BCD"; "CDA"] the graph has exactly the edges
    AA->AB, AB->BC, BC->CD, CD->DA; AA has out-degree 1 and in-degree 0, DA
    has in-degree 1 and out-degree 0; the start node is "AA" and the
    reconstruction from it is "AABCDA". *)
Theorem linear_scenario :
  let r := build_de_bruijn_graph linear_kmers in
  graph_of r = [("AA", ["AB"]); ("AB", ["BC"]); ("BC", ["CD"]); ("CD", ["DA"])] /\
  degree (out_degree_of r) "AA" = 1%Z /\
  degree (in_degree_of r) "AA" = 0%Z /\
  degree (in_degree_of r) "DA" = 1%Z /\
  degree (out_degree_of r) "DA" = 0%Z /\
  find_starting_node (graph_of r) (in_degree_of r) (out_degree_of r) = Some "AA" /\
  snd (reconstruct_dna (graph_of r) "AA") = Ok "AABCDA" /\
  main (fun _ => linear_kmers) "input.txt" = Ok "AABCDA".
Proof. cbv zeta. repeat split; reflexivity. Qed.

(** C4. With no k-mer at all the graph has no node, [find_starting_node]
    returns [None], and [main] raises ValueError: no other exception and no
    empty string. *)
Theorem empty_input_raises_value_error (input_file : string) :
  let r := build_de_bruijn_graph [] in
  graph_of r = [] /\
  find_starting_node (graph_of r) (in_degree_of r) (out_degree_of r) = None /\
  main (fun _ => []) input_file = Raise ValueError.
Proof. cbv zeta. repeat split; reflexivity. Qed.

(** A single empty k-mer (what splitting an empty text at commas gives): the
    only node is the empty string, it is balanced and becomes the start
    node, and [node[-1]] raises IndexError during the assembly. *)
Example empty_kmer_raises_index_error (input_file : string) :
  main (fun _ => [""]) input_file = Raise IndexError.
Proof. reflexivity. Qed.

(** C8. On ["ABA"; "BAB"] both nodes are balanced; [find_starting_node]
    returns the balanced node "BA", and the reconstruction from it is
    "BABA": a string of length 4 whose 3-mers are the input k-mers, as a
    multiset. *)
Theorem cycle_scenario :
  let r := build_de_bruijn_graph cycle_kmers in
  find_starting_node (graph_of r) (in_degree_of r) (out_degree_of r) = Some "BA" /\
  is_balanced (in_degree_of r) (out_degree_of r) "BA" = true /\
  snd (reconstruct_dna (graph_of r) "BA") = Ok "BABA" /\
  String.length "BABA" = 4 /\
  Permutation (kmers_of 3 "BABA") cycle_kmers.
Proof.
  cbv zeta. repeat split; try reflexivity.
  change (Permutation ["BAB"; "ABA"] ["ABA"; "BAB"]). apply perm_swap.
Qed.

(** ** Round trip *)

(** *** Windows of a string *)

Lemma take_length (n : nat) (s : string) :
  n <= String.length s -> String.length (take n s) = n.
Proof.
  revert s. induction n as [|n IH]; intros s Hle.
  - destruct s; reflexivity.
  - destruct s as [|c s]; simpl in *; [lia|]. rewrite IH; [reflexivity | lia].
Qed.

Lemma take_all (s : string) : take (String.length s) s = s.
Proof. induction s as [|c s IH]; simpl; [|rewrite IH]; reflexivity. Qed.

Lemma slice_init_take (n : nat) (s : string) :
  S n <= String.length s -> Py.slice_init (take (S n) s) = take n s.
Proof.
  revert s. induction n as [|n IH]; intros s Hle.
  - destruct s as [|c s]; simpl in *; [lia|]. destruct s; reflexivity.
  - destruct s as [|c s]; simpl in Hle; [lia|].
    destruct s as [|c' s]; simpl in Hle; [lia|].
    change (take (S (S n)) (String c (String c' s)))
      with (String c (String c' (take n s))).
    change (Py.slice_init (String c (String c' (take n s))))
      with (String c (Py.slice_init (take (S n) (String c' s)))).
    rewrite IH by (simpl; lia). reflexivity.
Qed.

Lemma slice_tail_take (n : nat) (c : ascii) (s : string) :
  Py.slice_tail (take (S n) (String c s)) = take n s.
Proof. reflexivity. Qed.

Lemma kmers_of_cons (k : nat) (c : ascii) (t : string) :
  kmers_of k (String c t)
  = if Nat.leb k (S (String.length t)) then take k (String c t) :: kmers_of k t
    else [].
Proof. reflexivity. Qed.

Lemma kmers_of_short (k : nat) (s : string) :
  String.length s < k -> kmers_of k s = [].
Proof.
  intros Hlt. destruct s as [|c t]; simpl in *.
  - destruct k; [lia | reflexivity].
  - destruct (Nat.leb_spec k (S (String.length t))); [lia | reflexivity].
Qed.

Lemma kmers_of_head (k : nat) (s : string) :
  1 <= k -> k <= String.length s ->
  kmers_of k s = take k s :: kmers_of k (Py.slice_tail s).
Proof.
  intros H1 Hle. destruct s as [|c t]; simpl in Hle; [lia|].
  rewrite kmers_of_cons.
  destruct (Nat.leb_spec k (S (String.length t))); [reflexivity | lia].
Qed.

(** The edges of the (j+1)-mers of [s] link the consecutive j-mers of [s]. *)
Lemma kmer_edges_of_string (j : nat) (s : string) :
  1 <= j ->
  map kmer_edge (kmers_of (S j) s) = pairs (kmers_of j s).
Proof.
  intros Hj. induction s as [|c t IH].
  - simpl. destruct j; [lia | reflexivity].
  - rewrite !kmers_of_cons.
    destruct (Nat.leb_spec (S j) (S (String.length t))) as [Hle|Hgt].
    + destruct (Nat.leb_spec j (S (String.length t))) as [_|]; [|lia].
      rewrite (kmers_of_head j t) in * by lia.
      cbn [map pairs]. rewrite IH. f_equal.
      unfold kmer_edge. rewrite slice_init_take by (simpl; lia).
      rewrite slice_tail_take. reflexivity.
    + rewrite (kmers_of_short j t) by lia.
      destruct (Nat.leb j (S (String.length t))); reflexivity.
Qed.

(** *** Assembling the windows gives the string back *)

Lemma index_last_split (s : string) :
  s <> "" ->
  exists x, Py.index_last s = Ok x /\ (Py.slice_init s ++ x)%string = s.
Proof.
  induction s as [|c s IH]; intros Hne; [congruence|].
  destruct s as [|c' s].
  - exists (String c ""). split; reflexivity.
  - destruct IH as (x & Hx & Hsplit); [discriminate|].
    exists x. split; [exact Hx|].
    change (Py.slice_init (String c (String c' s)))
      with (String c (Py.slice_init (String c' s))).
    cbn [append]. rewrite Hsplit. reflexivity.
Qed.

Lemma assemble_kmers_of (j : nat) (s : string) :
  1 <= j -> j <= String.length s -> assemble (kmers_of j s) = Ok s.
Proof.
  intros Hj. induction s as [|c t IH]; intros Hle; simpl in Hle; [lia|].
  rewrite kmers_of_cons.
  destruct (Nat.leb_spec j (S (String.length t))) as [_|]; [|lia].
  destruct (Nat.le_gt_cases j (String.length t)) as [Hjt|Hjt].
  - specialize (IH Hjt). rewrite (kmers_of_head j t) in * by lia.
    set (W := kmers_of j (Py.slice_tail t)) in *.
    simpl in IH. cbn [assemble last_chars].
    destruct (index_last_split (take j t)) as (x & Hx & Hsplit).
    { intros E. pose proof (take_length j t Hjt) as L. rewrite E in L.
      simpl in L. lia. }
    rewrite Hx. cbn [bind].
    destruct (last_chars W) as [cs|e]; simpl in IH; [|discriminate].
    cbn [bind]. injection IH as IH. f_equal.
    rewrite join_cons in IH. rewrite !join_cons.
    destruct j as [|j']; [lia|].
    rewrite slice_init_take in Hsplit by lia.
    cbn [take append]. f_equal.
    rewrite <- str_append_assoc, Hsplit. exact IH.
  - rewrite (kmers_of_short j t) by lia.
    replace j with (String.length (String c t)) by (simpl; lia).
    rewrite take_all. reflexivity.
Qed.

(** *** The graph of a chain of distinct nodes *)

Lemma dict_upsert_absent {V : Type} (f : V -> V) (dflt : V) (d : dict V) (k : string) :
  ~ In k (dict_keys d) -> dict_upsert f dflt d k = d ++ [(k, f dflt)].
Proof.
  induction d as [|[k0 v0] d IH]; simpl; intros H.
  - reflexivity.
  - destruct (String.eqb_spec k0 k).
    + exfalso. apply H. left. assumption.
    + f_equal. apply IH. intros Hin. apply H. right. assumption.
Qed.

Lemma dict_get_app_absent {V : Type} (d1 d2 : dict V) (k : string) :
  ~ In k (dict_keys d1) -> dict_get (d1 ++ d2) k = dict_get d2 k.
Proof.
  induction d1 as [|[k0 v0] d1 IH]; simpl; intros H.
  - reflexivity.
  - destruct (String.eqb_spec k0 k).
    + exfalso. apply H. left. assumption.
    + apply IH. intros Hin. apply H. right. assumption.
Qed.

Lemma dict_set_app_absent {V : Type} (d1 d2 : dict V) (k : string) (v : V) :
  ~ In k (dict_keys d1) -> dict_set (d1 ++ d2) k v = d1 ++ dict_set d2 k v.
Proof.
  induction d1 as [|[k0 v0] d1 IH]; simpl; intros H.
  - reflexivity.
  - destruct (String.eqb_spec k0 k).
    + exfalso. apply H. left. assumption.
    + f_equal. apply IH. intros Hin. apply H. right. assumption.
Qed.

Lemma dict_keys_app {V : Type} (d1 d2 : dict V) :
  dict_keys (d1 ++ d2) = dict_keys d1 ++ dict_keys d2.
Proof. apply map_app. Qed.

Lemma empties_keys (ns : list Node) : dict_keys (empties ns) = ns.
Proof.
  unfold dict_keys, empties. rewrite map_map. simpl. apply map_id.
Qed.

Lemma empties_get (ns : list Node) (n : Node) :
  In n ns -> dict_get (empties ns) n = Some [].
Proof.
  induction ns as [|a ns IH]; simpl; intros H; [contradiction|].
  destruct (String.eqb_spec a n); [reflexivity|].
  apply IH. destruct H; [contradiction | assumption].
Qed.

Lemma empties_app (l1 l2 : list Node) :
  empties (l1 ++ l2) = empties l1 ++ empties l2.
Proof. apply map_app. Qed.

(** Building from k-mers whose prefixes are pairwise distinct and whose
    suffixes are pairwise distinct appends one entry per k-mer. *)
Lemma build_loop_chain (kmers : list string) :
  forall (g : graph_t) (i o : degree_t),
    NoDup (dict_keys g ++ map fst (map kmer_edge kmers)) ->
    NoDup (dict_keys o ++ map fst (map kmer_edge kmers)) ->
    NoDup (dict_keys i ++ map snd (map kmer_edge kmers)) ->
    fold_left build_body kmers (g, i, o)
    = (g ++ chain_graph (map kmer_edge kmers),
       i ++ chain_in_degree (map kmer_edge kmers),
       o ++ chain_out_degree (map kmer_edge kmers)).
Proof.
  induction kmers as [|kmer kmers IH]; intros g i o Hg Ho Hi.
  - simpl. rewrite !app_nil_r. reflexivity.
  - cbn [fold_left map] in *. unfold build_body at 2.
    rewrite graph_append_upsert, !degree_incr_upsert.
    cbn [kmer_edge fst snd] in Hg, Ho, Hi.
    pose proof (NoDup_remove_2 _ _ _ Hg) as Hg2.
    pose proof (NoDup_remove_2 _ _ _ Ho) as Ho2.
    pose proof (NoDup_remove_2 _ _ _ Hi) as Hi2.
    rewrite (dict_upsert_absent _ _ g)
      by (intros Hin; apply Hg2, in_or_app; left; exact Hin).
    rewrite (dict_upsert_absent _ _ o)
      by (intros Hin; apply Ho2, in_or_app; left; exact Hin).
    rewrite (dict_upsert_absent _ _ i)
      by (intros Hin; apply Hi2, in_or_app; left; exact Hin).
    rewrite IH.
    + cbn [chain_graph chain_in_degree chain_out_degree map kmer_edge fst snd].
      rewrite <- !app_assoc. reflexivity.
    + rewrite dict_keys_app, <- app_assoc. exact Hg.
    + rewrite dict_keys_app, <- app_assoc. exact Ho.
    + rewrite dict_keys_app, <- app_assoc. exact Hi.
Qed.

Lemma pairs_fst_incl {A : Type} (l : list A) (x : A) :
  In x (map fst (pairs l)) -> In x l.
Proof.
  induction l as [|a t IH]; [intros []|].
  destruct t as [|b t]; [intros []|].
  change (pairs (a :: b :: t)) with ((a, b) :: pairs (b :: t)).
  simpl map. intros [<-|H]; [left; reflexivity | right; apply IH; exact H].
Qed.

Lemma pairs_fst_NoDup {A : Type} (l : list A) :
  NoDup l -> NoDup (map fst (pairs l)).
Proof.
  induction 1 as [|a t Hnotin Hnd IH]; [constructor|].
  destruct t as [|b t]; [constructor|].
  change (pairs (a :: b :: t)) with ((a, b) :: pairs (b :: t)).
  simpl map. constructor; [|exact IH].
  intros Hin. apply Hnotin. apply pairs_fst_incl. exact Hin.
Qed.

Lemma pairs_snd {A : Type} (a : A) (l : list A) :
  map snd (pairs (a :: l)) = l.
Proof.
  revert a. induction l as [|b t IH]; intros a; [reflexivity|].
  change (pairs (a :: b :: t)) with ((a, b) :: pairs (b :: t)).
  cbn [map snd]. rewrite IH. reflexivity.
Qed.

Lemma build_chain (kmers : list string) (a : Node) (rest : list Node) :
  map kmer_edge kmers = pairs (a :: rest) ->
  NoDup (a :: rest) ->
  build_de_bruijn_graph kmers
  = (chain_graph (pairs (a :: rest)),
     chain_in_degree (pairs (a :: rest)),
     chain_out_degree (pairs (a :: rest))).
Proof.
  intros Hedges Hnd. unfold build_de_bruijn_graph.
  rewrite build_loop_chain; rewrite Hedges; change (dict_keys []) with (@nil string);
    cbn [app].
  - reflexivity.
  - apply pairs_fst_NoDup. exact Hnd.
  - apply pairs_fst_NoDup. exact Hnd.
  - rewrite pairs_snd. inversion Hnd; assumption.
Qed.

(** The head of the chain is the start node. *)
Lemma find_starting_node_chain (a b : Node) (rest : list Node) :
  NoDup (a :: b :: rest) ->
  find_starting_node (chain_graph (pairs (a :: b :: rest)))
                     (chain_in_degree (pairs (a :: b :: rest)))
                     (chain_out_degree (pairs (a :: b :: rest)))
  = Some a.
Proof.
  intros Hnd. rewrite find_starting_node_spec.
  change (pairs (a :: b :: rest)) with ((a, b) :: pairs (b :: rest)).
  cbn [chain_graph map dict_keys fst find].
  assert (Hsrc : is_source (chain_in_degree ((a, b) :: pairs (b :: rest)))
                           (chain_out_degree ((a, b) :: pairs (b :: rest))) a
                 = true).
  { unfold is_source, degree, dict_peek.
    cbn [chain_out_degree map fst dict_get]. rewrite String.eqb_refl.
    assert (Hnone : dict_get (chain_in_degree ((a, b) :: pairs (b :: rest))) a
                    = None).
    { apply dict_get_None_keys. unfold dict_keys, chain_in_degree.
      rewrite map_map. cbn [fst].
      change (map (fun e : string * string => snd e) ((a, b) :: pairs (b :: rest)))
        with (map snd (pairs (a :: b :: rest))).
      rewrite pairs_snd. inversion Hnd; assumption. }
    rewrite Hnone. reflexivity. }
  rewrite Hsrc. reflexivity.
Qed.

(** The walk over a chain: push every node from [a] on, read the (missing)
    entry of the last node, then pop everything. *)
Lemma walk_chain (rest : list Node) :
  forall (a : Node) (done below path : list Node),
    NoDup (done ++ a :: rest) ->
    exists n,
      walk_steps n
        (mkState (empties done ++ chain_graph (pairs (a :: rest)))
                 (below ++ [a]) path)
        (mkState (empties (done ++ a :: rest)) below ((a :: rest) ++ path)).
Proof.
  induction rest as [|b rest IH]; intros a done below path Hnd.
  - exists 1. eapply steps_cons; [|apply steps_refl].
    apply walk_step_complete. cbn [pairs chain_graph map app].
    rewrite app_nil_r.
    assert (Habs : ~ In a (dict_keys (empties done))).
    { rewrite empties_keys. apply NoDup_remove_2 in Hnd.
      rewrite app_nil_r in Hnd. exact Hnd. }
    rewrite empties_app. cbn [empties map].
    rewrite <- (dict_set_absent (empties done) a []) by exact Habs.
    apply step_pop_new. apply dict_get_None_keys. exact Habs.
  - assert (Habs : ~ In a (dict_keys (empties done))).
    { rewrite empties_keys. apply NoDup_remove_2 in Hnd.
      intros Hin. apply Hnd. apply in_or_app. left. exact Hin. }
    change (pairs (a :: b :: rest)) with ((a, b) :: pairs (b :: rest)).
    cbn [chain_graph map fst snd].
    destruct (IH b (done ++ [a]) (below ++ [a]) path) as [n Hn].
    { rewrite <- app_assoc. exact Hnd. }
    exists (S n + 1).
    eapply steps_cons.
    { apply walk_step_complete.
      apply (step_push _ below a [] b path).
      rewrite dict_get_app_absent by exact Habs.
      cbn [dict_get]. rewrite String.eqb_refl. reflexivity. }
    eapply walk_steps_trans.
    { rewrite dict_set_app_absent by exact Habs.
      cbn [dict_set]. rewrite String.eqb_refl.
      change ((a, @nil string) :: map (fun e : string * string => (fst e, [snd e]))
                                     (pairs (b :: rest)))
        with (empties [a] ++ chain_graph (pairs (b :: rest))).
      rewrite app_assoc, <- empties_app. exact Hn. }
    eapply steps_cons; [|apply steps_refl].
    apply walk_step_complete.
    rewrite <- (app_assoc done [a] (b :: rest)). cbn [app].
    apply step_pop. apply empties_get.
    apply in_or_app. right. left. reflexivity.
Qed.

Lemma walk_final_chain (a : Node) (rest : list Node) :
  NoDup (a :: rest) ->
  walk_final (chain_graph (pairs (a :: rest))) a
  = mkState (empties (a :: rest)) [] (a :: rest).
Proof.
  intros Hnd.
  destruct (walk_chain rest a [] [] [] Hnd) as [n Hn].
  cbn [app empties map] in Hn. rewrite app_nil_r in Hn.
  unfold walk_final. apply (walk_run_loop n).
  - split; [exact Hn | reflexivity].
  - apply walk_steps_measure in Hn. unfold walk_init. lia.
Qed.

(** When the (k-1)-mers of [s] are pairwise distinct the graph is a chain
    and the pipeline gives back exactly [s]. *)
Lemma roundtrip_chain (k : nat) (s : string) (input_file : string) :
  2 <= k -> k <= String.length s ->
  NoDup (kmers_of (k - 1) s) ->
  main (fun _ => kmers_of k s) input_file = Ok s.
Proof.
  intros Hk Hlen Hnd.
  destruct k as [|j]; [lia|]. replace (S j - 1) with j in Hnd by lia.
  assert (Hj : 1 <= j) by lia.
  pose proof (kmer_edges_of_string j s Hj) as Hedges.
  pose proof (assemble_kmers_of j s Hj ltac:(lia)) as Hasm.
  rewrite (kmers_of_head j s) in * by lia.
  rewrite (kmers_of_head j (Py.slice_tail s)) in *
    by (try rewrite slice_tail_length; lia).
  set (a := take j s) in *.
  set (b := take j (Py.slice_tail s)) in *.
  set (rest := kmers_of j (Py.slice_tail (Py.slice_tail s))) in *.
  unfold main.
  rewrite (build_chain _ a (b :: rest) Hedges Hnd).
  rewrite (find_starting_node_chain a b rest Hnd).
  unfold reconstruct_dna. cbv zeta.
  rewrite (walk_final_chain a (b :: rest) Hnd).
  exact Hasm.
Qed.

(** C1 as written fails: the 3-mers of "ABAB" are ["ABA"; "BAB"], a
    circuit on two balanced nodes; the pipeline starts at "BA" and
    returns "BABA". *)
Lemma roundtrip_fails_on_repeat :
  2 <= 3 /\ 3 <= String.length "ABAB" /\
  kmers_of 3 "ABAB" = ["ABA"; "BAB"] /\
  main (fun _ => kmers_of 3 "ABAB") "input.txt" = Ok "BABA" /\
  main (fun _ => kmers_of 3 "ABAB") "input.txt" <> Ok "ABAB".
Proof.
  repeat split; try reflexivity; try (simpl; lia).
  vm_compute. discriminate.
Qed.

(** ** Eulerian trails *)

Lemma pairs_cons_cons {A : Type} (a b : A) (t : list A) :
  pairs (a :: b :: t) = (a, b) :: pairs (b :: t).
Proof. reflexivity. Qed.

Lemma pairs_snoc {A : Type} (l : list A) (a b : A) :
  pairs ((l ++ [a]) ++ [b]) = pairs (l ++ [a]) ++ [(a, b)].
Proof.
  induction l as [|c l IH]; [reflexivity|].
  destruct l as [|d l]; [reflexivity|].
  cbn [app] in *. rewrite !pairs_cons_cons, IH. reflexivity.
Qed.

Lemma pairs_In {A : Type} (l : list A) (a b : A) :
  In (a, b) (pairs l) -> In a l /\ In b l.
Proof.
  induction l as [|c l IH]; [intros []|].
  destruct l as [|d l]; [intros []|].
  rewrite pairs_cons_cons. intros [[= -> ->]|H].
  - split; [left; reflexivity | right; left; reflexivity].
  - destruct (IH H) as [Ha Hb]. split; right; assumption.
Qed.

(** *** Counting edges *)

Lemma out_count_app es1 es2 u :
  out_count (es1 ++ es2) u = out_count es1 u + out_count es2 u.
Proof. unfold out_count. rewrite map_app. apply count_occ_app. Qed.

Lemma in_count_app es1 es2 u :
  in_count (es1 ++ es2) u = in_count es1 u + in_count es2 u.
Proof. unfold in_count. rewrite map_app. apply count_occ_app. Qed.

Lemma out_count_cons a b es u :
  out_count ((a, b) :: es) u = unit_at a u + out_count es u.
Proof.
  unfold out_count, unit_at. simpl. destruct (string_dec a u); reflexivity.
Qed.

Lemma in_count_cons a b es u :
  in_count ((a, b) :: es) u = unit_at b u + in_count es u.
Proof.
  unfold in_count, unit_at. simpl. destruct (string_dec b u); reflexivity.
Qed.

Lemma out_count_perm es es' u :
  Permutation es es' -> out_count es u = out_count es' u.
Proof.
  intros H. unfold out_count.
  apply (Permutation_count_occ string_dec). apply Permutation_map. exact H.
Qed.

Lemma in_count_perm es es' u :
  Permutation es es' -> in_count es u = in_count es' u.
Proof.
  intros H. unfold in_count.
  apply (Permutation_count_occ string_dec). apply Permutation_map. exact H.
Qed.

Lemma unit_at_refl a : unit_at a a = 1.
Proof. unfold unit_at. destruct (string_dec a a); congruence. Qed.

(** The edges of a node sequence are balanced between its two ends. *)
Lemma pairs_balanced (tl : list Node) :
  forall a, balanced_between (pairs (a :: tl)) a (last tl a).
Proof.
  induction tl as [|b tl IH]; intros a u.
  - reflexivity.
  - rewrite pairs_cons_cons, out_count_cons, in_count_cons.
    specialize (IH b u).
    replace (last (b :: tl) a) with (last tl b)
      by (clear; revert b; induction tl as [|c tl IH]; intros b;
          [reflexivity | simpl in *; destruct tl; [reflexivity | apply IH]]).
    lia.
Qed.

(** *** Edges of the adjacency structure *)

Lemma graph_edges_app (g1 g2 : graph_t) :
  graph_edges (g1 ++ g2) = graph_edges g1 ++ graph_edges g2.
Proof. apply flat_map_app. Qed.

Lemma graph_edges_length (graph : graph_t) :
  List.length (graph_edges graph) = edge_count graph.
Proof.
  unfold graph_edges, edge_count. induction graph as [|[k adj] g IH]; simpl.
  - reflexivity.
  - rewrite length_app, length_map, IH. reflexivity.
Qed.

(** Removing the last successor of [current] removes one edge. *)
Lemma graph_edges_pop (graph : graph_t) (current next_node : Node) (adj : list Node) :
  dict_get graph current = Some (adj ++ [next_node]) ->
  Permutation (graph_edges graph)
              ((current, next_node) :: graph_edges (dict_set graph current adj)).
Proof.
  induction graph as [|[k0 a0] g IH]; simpl; [discriminate|].
  destruct (String.eqb_spec k0 current) as [->|Hne].
  - intros [= ->]. simpl. rewrite map_app. simpl.
    rewrite <- app_assoc. simpl. symmetry. apply Permutation_middle.
  - intros H. specialize (IH H). simpl.
    rewrite IH. symmetry. apply Permutation_middle.
Qed.

Lemma graph_edges_set_new (graph : graph_t) (current : Node) :
  dict_get graph current = None ->
  graph_edges (dict_set graph current []) = graph_edges graph.
Proof.
  intros H. rewrite dict_set_absent by (apply dict_get_None_keys; exact H).
  rewrite graph_edges_app. simpl. apply app_nil_r.
Qed.

Lemma dict_set_keys_NoDup {V : Type} (d : dict V) (k : string) (v : V) :
  NoDup (dict_keys d) -> NoDup (dict_keys (dict_set d k v)).
Proof.
  intros Hnd. destruct (in_dec string_dec k (dict_keys d)) as [Hin|Hnin].
  - rewrite dict_keys_set_present by exact Hin. exact Hnd.
  - rewrite dict_set_absent by exact Hnin. unfold dict_keys.
    rewrite map_app. simpl. apply NoDup_app_remove_r with (l' := []).
    rewrite <- app_assoc. simpl.
    apply Permutation_NoDup with (l := k :: map fst d).
    + apply Permutation_cons_append.
    + constructor; assumption.
Qed.

(** With distinct keys, the edges leaving [u] are the entry of [u]. *)
Lemma out_count_graph_edges (graph : graph_t) (u : Node) :
  NoDup (dict_keys graph) ->
  out_count (graph_edges graph) u = List.length (dict_peek [] graph u).
Proof.
  unfold dict_peek. induction graph as [|[k0 a0] g IH]; simpl; intros Hnd.
  - reflexivity.
  - inversion Hnd as [|? ? Hnotin Hnd']; subst.
    change (graph_edges ((k0, a0) :: g)) with (map (pair k0) a0 ++ graph_edges g).
    rewrite out_count_app.
    assert (Hfirst : out_count (map (pair k0) a0) u
                     = if String.eqb k0 u then List.length a0 else 0).
    { unfold out_count. rewrite map_map. simpl.
      destruct (String.eqb_spec k0 u) as [->|Hne].
      - induction a0 as [|w a0 IHa]; simpl; [reflexivity|].
        destruct (string_dec u u); [|congruence]. rewrite IHa. reflexivity.
      - induction a0 as [|w a0 IHa]; simpl; [reflexivity|].
        destruct (string_dec k0 u); [contradiction | exact IHa]. }
    rewrite Hfirst, (IH Hnd').
    destruct (String.eqb_spec k0 u) as [->|Hne]; [|reflexivity].
    apply dict_get_None_keys in Hnotin. rewrite Hnotin. simpl. lia.
Qed.

(** *** The invariant is kept *)

Lemma list_snoc_cases {A : Type} (l : list A) :
  l = [] \/ exists l' a, l = l' ++ [a].
Proof.
  destruct (Py.unsnoc l) as [[l' a]|] eqn:E.
  - right. exists l', a. apply unsnoc_Some. exact E.
  - left. apply unsnoc_None. exact E.
Qed.

Lemma unit_at_one (x c : Node) (n : nat) : unit_at x c = n + 1 -> x = c /\ n = 0.
Proof. unfold unit_at. destruct (string_dec x c); intros H; split; try lia; assumption. Qed.

(** Popping a node without outgoing edges: the node is the [x] of the
    invariant, and the node below it becomes the new [x]. *)
Lemma trail_inv_pop (edges0 : list (Node * Node)) (graph graph' : graph_t)
  (below : list Node) (current : Node) (path : list Node) :
  NoDup (dict_keys graph') ->
  graph_edges graph' = graph_edges graph ->
  out_count (graph_edges graph) current = 0 ->
  trail_inv edges0 (mkState graph (below ++ [current]) path) ->
  trail_inv edges0 (mkState graph' below (current :: path)).
Proof.
  intros Hnd' Hsame Hout [_ Hinv]. cbn [st_graph st_stack st_path] in Hinv.
  rewrite unsnoc_snoc in Hinv.
  destruct Hinv as (x & Hperm & Hbal).
  pose proof (Hbal current) as Hc. rewrite Hout, unit_at_refl in Hc.
  simpl in Hc. symmetry in Hc. rewrite Nat.add_comm in Hc. symmetry in Hc.
  rewrite Nat.add_comm in Hc.
  destruct (unit_at_one x current (in_count (graph_edges graph) current))
    as [-> _]; [lia|].
  split; [exact Hnd'|]. cbn [st_graph st_stack st_path] in *. rewrite Hsame.
  destruct (list_snoc_cases below) as [->|(below' & b & ->)].
  - simpl in *. exact Hperm.
  - rewrite unsnoc_snoc. exists b. split.
    + rewrite pairs_snoc in Hperm. rewrite pairs_cons_cons. perm_count.
    + intros u. specialize (Hbal u). lia.
Qed.

Lemma trail_inv_step (edges0 : list (Node * Node)) (s s' : walk_state) :
  trail_inv edges0 s -> walk_step_rel s s' -> trail_inv edges0 s'.
Proof.
  intros Hinv Hstep.
  destruct Hstep as [g below current adj next_node path Hget
                    | g below current path Hget
                    | g below current path Hget].
  - destruct Hinv as [Hnd Hinv]. cbn [st_graph st_stack st_path] in Hnd, Hinv.
    rewrite unsnoc_snoc in Hinv. destruct Hinv as (x & Hperm & Hbal).
    pose proof (graph_edges_pop g current next_node adj Hget) as Hpop.
    split; cbn [st_graph st_stack st_path].
    + apply dict_set_keys_NoDup. exact Hnd.
    + rewrite unsnoc_snoc. exists x. split.
      * rewrite pairs_snoc. perm_count.
      * intros u. specialize (Hbal u).
        rewrite (out_count_perm _ _ u Hpop), (in_count_perm _ _ u Hpop) in Hbal.
        rewrite out_count_cons, in_count_cons in Hbal. lia.
  - apply (trail_inv_pop edges0 g g below current path).
    + apply Hinv.
    + reflexivity.
    + rewrite out_count_graph_edges by apply Hinv.
      unfold dict_peek. rewrite Hget. reflexivity.
    + exact Hinv.
  - apply (trail_inv_pop edges0 g (dict_set g current []) below current path).
    + apply dict_set_keys_NoDup. apply Hinv.
    + apply graph_edges_set_new. exact Hget.
    + rewrite out_count_graph_edges by apply Hinv.
      unfold dict_peek. rewrite Hget. reflexivity.
    + exact Hinv.
Qed.

Lemma trail_inv_init (graph : graph_t) (start_node : Node) (tl : list Node) :
  NoDup (dict_keys graph) ->
  eulerian_trail graph (start_node :: tl) ->
  trail_inv (graph_edges graph) (walk_init graph start_node).
Proof.
  intros Hnd Htrail. split; [exact Hnd|]. simpl.
  exists (last tl start_node). split.
  - simpl. rewrite app_nil_r. apply Permutation_refl.
  - intros u. pose proof (pairs_balanced tl start_node u) as Hb.
    rewrite (out_count_perm _ _ u Htrail), (in_count_perm _ _ u Htrail).
    exact Hb.
Qed.

(** Nodes that were popped have no stored edge left, and every edge that
    is gone lies on the path; a trail from the start node therefore never
    leaves the path. *)
Lemma closed_under_trail (P : Node -> Prop) (trail : list Node) :
  (forall a b, In (a, b) (pairs trail) -> P a -> P b) ->
  (forall a, hd_error trail = Some a -> P a) ->
  forall n, In n trail -> P n.
Proof.
  induction trail as [|a tl IH]; intros Hstep Hhd n Hin; [contradiction|].
  assert (Ha : P a) by (apply Hhd; reflexivity).
  destruct Hin as [<-|Hin]; [exact Ha|].
  apply IH; [| |exact Hin].
  - intros x y Hxy. apply Hstep. destruct tl as [|b tl]; [contradiction|].
    rewrite pairs_cons_cons. right. exact Hxy.
  - intros b Hb. destruct tl as [|b' tl]; [discriminate|].
    injection Hb as ->. apply (Hstep a b); [|exact Ha].
    rewrite pairs_cons_cons. left. reflexivity.
Qed.

(** Hierholzer's algorithm is correct: when the graph has an Eulerian trail
    from the start node, the walk removes every edge, and the path it
    builds is an Eulerian trail from the start node. *)
Lemma walk_final_eulerian (graph : graph_t) (start_node : Node) (tl : list Node) :
  NoDup (dict_keys graph) ->
  eulerian_trail graph (start_node :: tl) ->
  graph_edges (st_graph (walk_final graph start_node)) = [] /\
  Permutation (pairs (st_path (walk_final graph start_node)))
              (pairs (start_node :: tl)) /\
  hd_error (st_path (walk_final graph start_node)) = Some start_node.
Proof.
  intros Hnd Htrail.
  pose proof (walk_final_invariant (trail_inv (graph_edges graph)) graph start_node
                (trail_inv_step (graph_edges graph))
                (trail_inv_init graph start_node tl Hnd Htrail)) as [Hnd' Hinv].
  destruct (walk_inv_final graph start_node) as [Hdone _ _ _].
  destruct (walk_final_path graph start_node) as (rest & Hpath & _).
  rewrite walk_final_stack in Hinv. simpl in Hinv.
  set (s := walk_final graph start_node) in *.
  assert (Hout : forall u, In u (st_path s) ->
                           forall w, ~ In (u, w) (graph_edges (st_graph s))).
  { intros u Hu w Hin.
    pose proof (out_count_graph_edges (st_graph s) u Hnd') as Hc.
    unfold dict_peek in Hc. rewrite (Hdone u Hu) in Hc. simpl in Hc.
    unfold out_count in Hc.
    apply (count_occ_not_In string_dec) in Hc. apply Hc.
    apply in_map_iff. exists (u, w). split; [reflexivity | exact Hin]. }
  assert (Hall : forall n, In n (start_node :: tl) -> In n (st_path s)).
  { apply closed_under_trail.
    - intros a b Hab Ha.
      apply (Permutation_in _ (Permutation_sym Htrail)) in Hab.
      apply (Permutation_in _ Hinv) in Hab.
      apply in_app_or in Hab. destruct Hab as [Hab|Hab].
      + exfalso. exact (Hout a Ha b Hab).
      + apply pairs_In in Hab. tauto.
    - intros a [= <-]. rewrite Hpath. left. reflexivity. }
  assert (Hempty : graph_edges (st_graph s) = []).
  { destruct (graph_edges (st_graph s)) as [|[u w] es] eqn:E; [reflexivity|].
    exfalso. apply (Hout u) with (w := w).
    - apply Hall.
      assert (Hin : In (u, w) (pairs (start_node :: tl))).
      { apply (Permutation_in _ Htrail). apply (Permutation_in _ (Permutation_sym Hinv)).
        left. reflexivity. }
      apply pairs_In in Hin. tauto.
    - left. reflexivity. }
  repeat split.
  - exact Hempty.
  - rewrite Hempty in Hinv. simpl in Hinv.
    rewrite <- Htrail. symmetry. exact Hinv.
  - rewrite Hpath. reflexivity.
Qed.

(** *** The graph and the degree tables that are built *)

Lemma dict_upsert_as_set {V : Type} (f : V -> V) (dflt : V) (d : dict V) (k : string) :
  dict_upsert f dflt d k = dict_set d k (f (dict_peek dflt d k)).
Proof.
  unfold dict_peek. induction d as [|[k0 v0] d IH]; simpl.
  - reflexivity.
  - destruct (String.eqb k0 k); [reflexivity|]. rewrite IH. reflexivity.
Qed.

Lemma dict_set_keys_In {V : Type} (d : dict V) (k u : string) (v : V) :
  In u (dict_keys (dict_set d k v)) <-> u = k \/ In u (dict_keys d).
Proof.
  induction d as [|[k0 v0] d IH]; simpl.
  - split; [intros [->|[]]; auto | intros [->|[]]; auto].
  - destruct (String.eqb_spec k0 k) as [->|Hne]; simpl.
    + split; [intros [->|H]; auto | intros [->|[->|H]]; auto].
    + rewrite IH. split; [intros [->|[->|H]]; auto | intros [->|[->|H]]; auto].
Qed.

Lemma graph_append_keys_NoDup (graph : graph_t) (prefix suffix : Node) :
  NoDup (dict_keys graph) -> NoDup (dict_keys (graph_append graph prefix suffix)).
Proof.
  intros H. rewrite graph_append_upsert, dict_upsert_as_set.
  apply dict_set_keys_NoDup. exact H.
Qed.

Lemma graph_append_keys_In (graph : graph_t) (prefix suffix u : Node) :
  In u (dict_keys (graph_append graph prefix suffix))
  <-> u = prefix \/ In u (dict_keys graph).
Proof.
  rewrite graph_append_upsert, dict_upsert_as_set. apply dict_set_keys_In.
Qed.

Lemma graph_append_edges (graph : graph_t) (prefix suffix : Node) :
  Permutation (graph_edges (graph_append graph prefix suffix))
              (graph_edges graph ++ [(prefix, suffix)]).
Proof.
  rewrite graph_append_upsert.
  induction graph as [|[k0 a0] g IH]; simpl.
  - apply Permutation_refl.
  - destruct (String.eqb_spec k0 prefix) as [->|Hne]; simpl.
    + rewrite map_app. simpl. perm_count.
    + rewrite IH. perm_count.
Qed.

Lemma degree_incr_degree (d : degree_t) (n u : Node) :
  degree (degree_incr d n) u = (degree d u + Z.of_nat (unit_at n u))%Z.
Proof.
  rewrite degree_incr_upsert, dict_upsert_as_set. unfold degree, dict_peek, unit_at.
  destruct (string_dec n u) as [->|Hne].
  - rewrite dict_get_set_same. simpl. reflexivity.
  - rewrite dict_get_set_other by congruence. simpl. lia.
Qed.

(** What the loop of [build_de_bruijn_graph] adds to any accumulator. *)
Lemma build_loop_edges (kmers : list string) :
  forall acc,
    let r := fold_left build_body kmers acc in
    (NoDup (dict_keys (graph_of acc)) -> NoDup (dict_keys (graph_of r))) /\
    Permutation (graph_edges (graph_of r))
                (graph_edges (graph_of acc) ++ map kmer_edge kmers) /\
    (forall u, In u (dict_keys (graph_of r))
               <-> In u (dict_keys (graph_of acc)) \/ In u (map Py.slice_init kmers)) /\
    (forall u, degree (out_degree_of r) u
               = (degree (out_degree_of acc) u
                  + Z.of_nat (out_count (map kmer_edge kmers) u))%Z) /\
    (forall u, degree (in_degree_of r) u
               = (degree (in_degree_of acc) u
                  + Z.of_nat (in_count (map kmer_edge kmers) u))%Z).
Proof.
  induction kmers as [|kmer kmers IH]; intros acc; cbv zeta.
  - simpl. rewrite app_nil_r. repeat split; auto; try tauto.
    + unfold out_count. simpl. lia.
    + unfold in_count. simpl. lia.
  - cbn [fold_left map].
    destruct (IH (build_body acc kmer)) as (Hnd & Hperm & Hkeys & Hout & Hin).
    rewrite build_body_graph in Hnd, Hperm, Hkeys.
    rewrite build_body_out_degree in Hout. rewrite build_body_in_degree in Hin.
    split; [|split; [|split; [|split]]].
    + intros H. apply Hnd, graph_append_keys_NoDup, H.
    + rewrite Hperm, graph_append_edges. unfold kmer_edge at 2.
      rewrite <- app_assoc. reflexivity.
    + intros u. rewrite Hkeys, graph_append_keys_In. simpl.
      split; [intros [[->|H]|H]; auto | intros [H|[<-|H]]; auto].
    + intros u. rewrite Hout, degree_incr_degree.
      unfold kmer_edge at 2. rewrite out_count_cons. lia.
    + intros u. rewrite Hin, degree_incr_degree.
      unfold kmer_edge at 2. rewrite in_count_cons. lia.
Qed.

Lemma build_edges (kmers : list string) :
  let r := build_de_bruijn_graph kmers in
  NoDup (dict_keys (graph_of r)) /\
  Permutation (graph_edges (graph_of r)) (map kmer_edge kmers) /\
  (forall u, In u (dict_keys (graph_of r)) <-> In u (map Py.slice_init kmers)) /\
  (forall u, degree (out_degree_of r) u
             = Z.of_nat (out_count (map kmer_edge kmers) u)) /\
  (forall u, degree (in_degree_of r) u
             = Z.of_nat (in_count (map kmer_edge kmers) u)).
Proof.
  destruct (build_loop_edges kmers ([], [], []))
    as (Hnd & Hperm & Hkeys & Hout & Hin).
  cbv zeta. unfold build_de_bruijn_graph.
  split; [|split; [|split; [|split]]].
  - apply Hnd. constructor.
  - exact Hperm.
  - intros u. rewrite Hkeys. simpl. tauto.
  - intros u. rewrite Hout. reflexivity.
  - intros u. rewrite Hin. reflexivity.
Qed.

(** *** The start node of a trail *)

Lemma pairs_app_mid {A : Type} (l1 l2 : list A) (a : A) :
  pairs (l1 ++ a :: l2) = pairs (l1 ++ [a]) ++ pairs (a :: l2).
Proof.
  induction l1 as [|c l1 IH]; [reflexivity|].
  destruct l1 as [|d l1].
  - simpl app. rewrite !pairs_cons_cons. reflexivity.
  - cbn [app] in *. rewrite !pairs_cons_cons, IH. reflexivity.
Qed.

(** A closed trail can be started at any of its nodes. *)
Lemma circuit_rotate {A : Type} (a u : A) (tl : list A) :
  last tl a = a -> In u (a :: tl) ->
  exists tl', Permutation (pairs (u :: tl')) (pairs (a :: tl)).
Proof.
  intros Hlast Hin. apply in_split in Hin. destruct Hin as (l1 & l2 & Hsplit).
  destruct l1 as [|c l1].
  - injection Hsplit as -> ->. exists l2. apply Permutation_refl.
  - injection Hsplit as <- ->.
    assert (Hne : u :: l2 <> []) by discriminate.
    destruct (exists_last Hne) as (L & x & HL).
    assert (Hx : x = a).
    { rewrite <- Hlast. rewrite HL, app_assoc. symmetry. apply last_last. }
    subst x. exists (l2 ++ l1 ++ [u]).
    change (u :: l2 ++ l1 ++ [u]) with ((u :: l2) ++ l1 ++ [u]).
    rewrite HL, <- app_assoc. cbn [app].
    rewrite (pairs_app_mid L (l1 ++ [u]) a), <- HL.
    change (a :: l1 ++ u :: l2) with ((a :: l1) ++ u :: l2).
    rewrite (pairs_app_mid (a :: l1) l2 u).
    apply Permutation_app_comm.
Qed.

Lemma find_all_false {A : Type} (f : A -> bool) (l : list A) :
  (forall x, f x = false) -> find f l = None.
Proof.
  intros H. induction l as [|a l IH]; simpl; [reflexivity|]. rewrite H. exact IH.
Qed.

(** For the k-mers of a node sequence, [find_starting_node] returns a node
    from which the edges form a trail: the head of the sequence when the
    sequence is open, a node of the circuit when it is closed. *)
Lemma find_starting_node_trail (kmers : list string) (a b : Node) (rest : list Node) :
  map kmer_edge kmers = pairs (a :: b :: rest) ->
  let r := build_de_bruijn_graph kmers in
  exists start_node tl,
    find_starting_node (graph_of r) (in_degree_of r) (out_degree_of r)
    = Some start_node /\
    Permutation (pairs (start_node :: tl)) (pairs (a :: b :: rest)) /\
    (last (b :: rest) a <> a -> start_node = a).
Proof.
  intros Hedges r.
  destruct (build_edges kmers) as (_ & _ & Hkeys & Hout & Hin). fold r in Hkeys, Hout, Hin.
  rewrite Hedges in Hout, Hin.
  pose proof (pairs_balanced (b :: rest) a) as Hbal.
  set (es := pairs (a :: b :: rest)) in *. set (e := last (b :: rest) a) in *.
  assert (Hfst : forall u, In u (dict_keys (graph_of r)) -> In u (a :: b :: rest)).
  { intros u Hu. apply Hkeys in Hu.
    replace (map Py.slice_init kmers) with (map fst (map kmer_edge kmers)) in Hu
      by (rewrite map_map; reflexivity).
    rewrite Hedges in Hu. apply pairs_fst_incl. exact Hu. }
  assert (Ha : In a (dict_keys (graph_of r))).
  { apply Hkeys.
    replace (map Py.slice_init kmers) with (map fst (map kmer_edge kmers))
      by (rewrite map_map; reflexivity).
    rewrite Hedges. unfold es. rewrite pairs_cons_cons. left. reflexivity. }
  assert (Hsrc : forall u, is_source (in_degree_of r) (out_degree_of r) u = true
                           <-> out_count es u = in_count es u + 1).
  { intros u. unfold is_source. rewrite Hout, Hin, Z.eqb_eq. lia. }
  assert (Hbalanced : forall u, is_balanced (in_degree_of r) (out_degree_of r) u = true
                                <-> out_count es u = in_count es u).
  { intros u. unfold is_balanced. rewrite Hout, Hin, Z.eqb_eq. lia. }
  rewrite find_starting_node_spec. unfold last_balanced.
  destruct (string_dec e a) as [Hclosed|Hopen].
  - (* closed: every node is balanced, the last key is returned *)
    assert (Hall : forall u, out_count es u = in_count es u).
    { intros u. specialize (Hbal u). rewrite Hclosed in Hbal. lia. }
    rewrite find_all_false.
    2:{ intros u. destruct (is_source _ _ u) eqn:E; [|reflexivity].
        apply Hsrc in E. rewrite Hall in E. lia. }
    destruct (rev (dict_keys (graph_of r))) as [|k ks] eqn:Erev.
    { apply (f_equal (@rev string)) in Erev. rewrite rev_involutive in Erev.
      rewrite Erev in Ha. contradiction. }
    assert (Hk : In k (a :: b :: rest)).
    { apply Hfst. apply in_rev. rewrite Erev. left. reflexivity. }
    destruct (circuit_rotate a k (b :: rest) Hclosed Hk) as [tl Htl].
    exists k, tl. cbn [find].
    rewrite (proj2 (Hbalanced k) (Hall k)).
    split; [reflexivity|]. split; [exact Htl | intros H; contradiction].
  - (* open: the head of the sequence is the only source *)
    assert (Hunit : unit_at e a = 0).
    { unfold unit_at. destruct (string_dec e a); [contradiction | reflexivity]. }
    destruct (find (is_source (in_degree_of r) (out_degree_of r))
                   (dict_keys (graph_of r))) as [v|] eqn:E.
    + apply find_some in E. destruct E as [_ Hv]. apply Hsrc in Hv.
      assert (v = a).
      { specialize (Hbal v). unfold unit_at in Hbal.
        destruct (string_dec a v); [congruence|].
        destruct (string_dec e v); lia. }
      subst v. exists a, (b :: rest).
      split; [reflexivity|]. split; [apply Permutation_refl | reflexivity].
    + exfalso. pose proof (find_none _ _ E a Ha) as Hf.
      assert (Ht : is_source (in_degree_of r) (out_degree_of r) a = true).
      { apply Hsrc. specialize (Hbal a). rewrite Hunit, unit_at_refl in Hbal. lia. }
      congruence.
Qed.

(** *** From a trail to the string *)

Lemma edge_kmer_kmer_edge (kmer : string) :
  2 <= String.length kmer -> edge_kmer (kmer_edge kmer) = kmer.
Proof.
  destruct kmer as [|c [|c' t]]; simpl; intros H; try lia. reflexivity.
Qed.

Lemma slice_tail_init (s : string) :
  Py.slice_tail (Py.slice_init s) = Py.slice_init (Py.slice_tail s).
Proof. destruct s as [|c [|c' t]]; reflexivity. Qed.

Lemma kmer_edge_overlap (j : nat) (kmer : string) :
  String.length kmer = S j -> overlap j (kmer_edge kmer).
Proof.
  intros H. unfold overlap, kmer_edge. simpl.
  rewrite slice_init_length, slice_tail_length, H, slice_tail_init.
  repeat split; lia.
Qed.

Lemma take_app_exact (a b : string) : take (String.length a) (a ++ b)%string = a.
Proof. induction a as [|c a IH]; simpl; [destruct b|rewrite IH]; reflexivity. Qed.

Lemma kmers_of_each_length (k : nat) (s : string) :
  Forall (fun kmer => String.length kmer = k) (kmers_of k s).
Proof.
  induction s as [|c t IH].
  - simpl. destruct k; simpl; repeat constructor.
  - rewrite kmers_of_cons.
    destruct (Nat.leb_spec k (S (String.length t))); constructor; [|exact IH].
    apply take_length. simpl. lia.
Qed.

Lemma pairs_length {A : Type} (l : list A) :
  List.length (pairs l) = List.length l - 1.
Proof.
  induction l as [|a l IH]; [reflexivity|].
  destruct l as [|b l]; [reflexivity|].
  rewrite pairs_cons_cons. simpl List.length in *. lia.
Qed.

(** Assembling a path whose consecutive nodes overlap: the k-mers of the
    result are the edges of the path, in order. *)
Lemma assemble_trail (j : nat) (rest : list Node) :
  1 <= j ->
  forall p : Node,
    String.length p = j ->
    Forall (overlap j) (pairs (p :: rest)) ->
    exists cs,
      last_chars rest = Ok cs /\
      (exists suffix, Py.join (p :: cs) = (p ++ suffix)%string) /\
      kmers_of (S j) (Py.join (p :: cs)) = map edge_kmer (pairs (p :: rest)) /\
      String.length (Py.join (p :: cs)) = j + List.length rest.
Proof.
  intros Hj. induction rest as [|q rest IH]; intros p Hp Hov.
  - exists []. split; [reflexivity|]. change (Py.join [p]) with p.
    split; [|split].
    + exists "". symmetry. apply str_append_nil_r.
    + apply kmers_of_short. lia.
    + simpl. lia.
  - rewrite pairs_cons_cons in Hov. inversion Hov as [|? ? Hpq Hov']; subst.
    destruct Hpq as (_ & Hq & Hcont). simpl in Hq, Hcont.
    destruct (IH q Hq Hov') as (cs & Hcs & [suffix Hsuf] & Hkm & Hlen).
    destruct (index_last_split q) as (x & Hx & Hsplit).
    { intros ->. simpl in Hq. lia. }
    exists (x :: cs). cbn [last_chars]. rewrite Hx, Hcs. cbn [bind].
    destruct p as [|h p']; [simpl in Hj; lia|]. simpl in Hcont.
    assert (Hcons : Py.join (String h p' :: x :: cs) = String h (Py.join (q :: cs))).
    { rewrite !join_cons. cbn [append]. f_equal.
      rewrite Hcont, <- str_append_assoc, Hsplit. reflexivity. }
    split; [reflexivity|]. split; [|split].
    + exists (x ++ Py.join cs)%string. rewrite !join_cons. reflexivity.
    + rewrite Hcons, kmers_of_cons, Hlen.
      destruct (Nat.leb_spec (S (String.length (String h p')))
                             (S (String.length (String h p') + List.length rest)));
        [|lia].
      rewrite Hkm, pairs_cons_cons. cbn [map]. f_equal.
      cbn [take edge_kmer fst snd]. f_equal.
      rewrite Hsuf. rewrite <- Hq. apply take_app_exact.
    + rewrite Hcons. cbn [String.length List.length] in *. lia.
Qed.

(** For every string, the pipeline returns a string with the same k-mers. *)
Lemma roundtrip_kmers (j : nat) (s : string) (input_file : string) :
  1 <= j -> S j <= String.length s ->
  exists s',
    main (fun _ => kmers_of (S j) s) input_file = Ok s' /\
    String.length s' = String.length s /\
    Permutation (kmers_of (S j) s') (kmers_of (S j) s).
Proof.
  intros Hj Hlen.
  pose proof (kmer_edges_of_string j s Hj) as Hedges.
  pose proof (assemble_kmers_of j s Hj ltac:(lia)) as Hasm.
  pose proof (kmers_of_each_length (S j) s) as Heach.
  rewrite (kmers_of_head j s) in Hedges, Hasm by lia.
  rewrite (kmers_of_head j (Py.slice_tail s)) in Hedges, Hasm
    by (try rewrite slice_tail_length; lia).
  set (a := take j s) in *.
  set (b := take j (Py.slice_tail s)) in *.
  set (rest := kmers_of j (Py.slice_tail (Py.slice_tail s))) in *.
  set (kmers := kmers_of (S j) s) in *.
  assert (Ha : String.length a = j) by (apply take_length; lia).
  (* the start node and the trail from it *)
  destruct (find_starting_node_trail kmers a b rest Hedges)
    as (start_node & tl & Hfind & Hrot & _).
  destruct (build_edges kmers) as (Hnd & Hperm & _).
  pose proof (build_nodes_len (S j) kmers Heach) as Hnodes.
  replace (S j - 1) with j in Hnodes by lia.
  pose proof (find_starting_node_In _ _ _ _ Hfind) as Hkey.
  pose proof (graph_nodes_len_keys _ _ _ Hnodes Hkey) as Hstart.
  assert (Htrail : eulerian_trail (graph_of (build_de_bruijn_graph kmers))
                                  (start_node :: tl)).
  { unfold eulerian_trail. rewrite Hperm, Hedges. symmetry. exact Hrot. }
  destruct (walk_final_eulerian _ _ _ Hnd Htrail) as (_ & Hpath & _).
  destruct (walk_final_path (graph_of (build_de_bruijn_graph kmers)) start_node)
    as (rest' & Hrest' & _).
  rewrite Hrest' in Hpath.
  (* every edge of the path is the edge of a k-mer *)
  assert (Hov : Forall (overlap j) (pairs (a :: b :: rest))).
  { rewrite <- Hedges. apply Forall_map.
    eapply Forall_impl; [|exact Heach]. intros kmer. apply kmer_edge_overlap. }
  assert (Hov' : Forall (overlap j) (pairs (start_node :: rest'))).
  { eapply Permutation_Forall; [|exact Hov].
    rewrite <- Hrot. symmetry. exact Hpath. }
  destruct (assemble_trail j rest' Hj start_node Hstart Hov')
    as (cs & Hcs & _ & Hkm & Hlen').
  destruct (assemble_trail j (b :: rest) Hj a Ha Hov)
    as (cs0 & Hcs0 & _ & _ & Hlen0).
  exists (Py.join (start_node :: cs)). split; [|split].
  - unfold main. fold kmers.
    destruct (build_de_bruijn_graph kmers) as [[g i] o].
    unfold graph_of, in_degree_of, out_degree_of in *. simpl fst in *. simpl snd in *.
    rewrite Hfind. unfold reconstruct_dna. cbv zeta. cbn [snd].
    rewrite Hrest'. cbn [assemble]. rewrite Hcs. reflexivity.
  - rewrite Hlen'.
    cbn [assemble] in Hasm. rewrite Hcs0 in Hasm. cbn [bind] in Hasm.
    injection Hasm as Hs. rewrite <- Hs, Hlen0.
    apply Permutation_length in Hpath, Hrot.
    rewrite !pairs_length in Hpath, Hrot. simpl List.length in *. lia.
  - rewrite Hkm.
    rewrite (Permutation_map edge_kmer (Permutation_trans Hpath Hrot)).
    rewrite <- Hedges, map_map.
    rewrite (map_ext_in _ (fun kmer => kmer)), map_id; [apply Permutation_refl|].
    intros kmer Hin. apply edge_kmer_kmer_edge.
    rewrite Forall_forall in Heach. rewrite (Heach kmer Hin). lia.
Qed.



(** ** The claims on the whole walk and on the whole pipeline *)



(** C1, as the code behaves.  Let [s] have length at least [k], [k >= 2].
    Feeding the k-mers of [s], in order, to the pipeline returns a string
    of the same length whose k-mers are the k-mers of [s] up to their
    order; the string is exactly [s] when the (k-1)-mers of [s] are
    pairwise distinct. *)
Theorem roundtrip_same_kmers (k : nat) (s : string) (input_file : string) :
  2 <= k -> k <= String.length s ->
  (exists s',
      main (fun _ => kmers_of k s) input_file = Ok s' /\
      String.length s' = String.length s /\
      Permutation (kmers_of k s') (kmers_of k s)) /\
  (NoDup (kmers_of (k - 1) s) ->
   main (fun _ => kmers_of k s) input_file = Ok s).
Proof.
  intros Hk Hlen. split.
  - destruct k as [|j]; [lia|]. apply roundtrip_kmers; lia.
  - intros Hnd. apply roundtrip_chain; assumption.
Qed.

Lemma roundtrip_same_kmers_witness :
  main (fun _ => kmers_of 3 "AABCDA") "input.txt" = Ok "AABCDA".
Proof.
  destruct (roundtrip_same_kmers 3 "AABCDA" "input.txt") as [_ Hexact].
  - apply le_S, le_n.
  - vm_compute. apply le_S, le_S, le_S, le_n.
  - apply Hexact. vm_compute. repeat constructor; simpl; intuition discriminate.
Defined.

(** * Further properties of the code *)

(** ** What build_de_bruijn_graph stores *)

Lemma existsb_eqb_In (k : string) (l : list string) :
  existsb (String.eqb k) l = true <-> In k l.
Proof.
  rewrite existsb_exists. split.
  - intros (x & Hin & Heq). apply String.eqb_eq in Heq. subst x. exact Hin.
  - intros Hin. exists k. split; [exact Hin | apply String.eqb_refl].
Qed.

Lemma dict_set_keys {V : Type} (d : dict V) (k : string) (v : V) :
  dict_keys (dict_set d k v) = insert_key (dict_keys d) k.
Proof.
  unfold insert_key. destruct (existsb (String.eqb k) (dict_keys d)) eqn:E.
  - apply dict_keys_set_present. apply existsb_eqb_In. exact E.
  - rewrite dict_set_absent.
    + unfold dict_keys. rewrite map_app. reflexivity.
    + intros Hin. apply existsb_eqb_In in Hin. congruence.
Qed.

Lemma filter_absorb {A : Type} (f g : A -> bool) (l : list A) :
  (forall x, f x = true -> g x = true) ->
  filter f (filter g l) = filter f l.
Proof.
  intros H. induction l as [|a l IH]; simpl; [reflexivity|].
  destruct (g a) eqn:Eg; simpl.
  - rewrite IH. reflexivity.
  - destruct (f a) eqn:Ef; [|exact IH].
    apply H in Ef. congruence.
Qed.

Lemma filter_twice {A : Type} (f g : A -> bool) (l : list A) :
  filter f (filter g l) = filter (fun x => g x && f x) l.
Proof.
  induction l as [|a l IH]; simpl; [reflexivity|].
  destruct (g a); simpl; [destruct (f a)|]; rewrite ?IH; reflexivity.
Qed.

(** Inserting keys one after the other keeps the keys that were there and
    appends the new ones in the order of their first occurrence. *)
Lemma insert_keys_first_occurrences (ks : list string) :
  forall keys,
    fold_left insert_key ks keys
    = keys ++ filter (fun y => negb (existsb (String.eqb y) keys))
                     (first_occurrences ks).
Proof.
  induction ks as [|k ks IH]; intros keys.
  - simpl. rewrite app_nil_r. reflexivity.
  - cbn [fold_left first_occurrences filter]. rewrite IH. unfold insert_key.
    destruct (existsb (String.eqb k) keys) eqn:E; cbn [negb].
    + f_equal. symmetry. apply filter_absorb.
      intros y Hy. apply negb_true_iff in Hy. apply negb_true_iff.
      destruct (String.eqb_spec k y) as [->|]; [congruence | reflexivity].
    + rewrite <- app_assoc. cbn [app]. do 2 f_equal.
      rewrite filter_twice. apply filter_ext. intros y.
      rewrite existsb_app. cbn [existsb]. rewrite orb_false_r, negb_orb.
      rewrite (String.eqb_sym y k). apply andb_comm.
Qed.

Lemma first_occurrences_from_nil (ks : list string) :
  fold_left insert_key ks [] = first_occurrences ks.
Proof.
  rewrite insert_keys_first_occurrences. cbn [app existsb negb].
  induction (first_occurrences ks) as [|a l IH]; simpl; [|rewrite IH]; reflexivity.
Qed.

Lemma graph_append_keys (graph : graph_t) (prefix suffix : Node) :
  dict_keys (graph_append graph prefix suffix) = insert_key (dict_keys graph) prefix.
Proof. rewrite graph_append_upsert, dict_upsert_as_set. apply dict_set_keys. Qed.

Lemma degree_incr_keys (d : degree_t) (n : Node) :
  dict_keys (degree_incr d n) = insert_key (dict_keys d) n.
Proof. rewrite degree_incr_upsert, dict_upsert_as_set. apply dict_set_keys. Qed.

Lemma build_loop_keys (kmers : list string) :
  forall acc,
    let r := fold_left build_body kmers acc in
    dict_keys (graph_of r)
    = fold_left insert_key (map Py.slice_init kmers) (dict_keys (graph_of acc)) /\
    dict_keys (out_degree_of r)
    = fold_left insert_key (map Py.slice_init kmers) (dict_keys (out_degree_of acc)) /\
    dict_keys (in_degree_of r)
    = fold_left insert_key (map Py.slice_tail kmers) (dict_keys (in_degree_of acc)).
Proof.
  induction kmers as [|kmer kmers IH]; intros acc; cbv zeta.
  - repeat split.
  - cbn [fold_left map]. destruct (IH (build_body acc kmer)) as (Hg & Ho & Hi).
    rewrite Hg, Ho, Hi.
    rewrite build_body_graph, build_body_out_degree, build_body_in_degree.
    rewrite graph_append_keys, !degree_incr_keys. repeat split.
Qed.

(** X1. The keys of the graph are the distinct prefixes of the k-mers in the
    order in which they first occur, and so are the keys of the out-degree
    table; the keys of the in-degree table are the distinct suffixes in the
    order in which they first occur.  A node that occurs only as a suffix
    is no key of the graph. *)
Theorem build_key_order (kmers : list string) :
  let r := build_de_bruijn_graph kmers in
  dict_keys (graph_of r) = first_occurrences (map Py.slice_init kmers) /\
  dict_keys (out_degree_of r) = first_occurrences (map Py.slice_init kmers) /\
  dict_keys (in_degree_of r) = first_occurrences (map Py.slice_tail kmers).
Proof.
  destruct (build_loop_keys kmers ([], [], [])) as (Hg & Ho & Hi).
  cbv zeta. unfold build_de_bruijn_graph. rewrite Hg, Ho, Hi.
  cbn [graph_of out_degree_of in_degree_of fst snd dict_keys map].
  rewrite !first_occurrences_from_nil. repeat split.
Qed.

Lemma graph_append_peek (graph : graph_t) (prefix suffix u : Node) :
  dict_peek [] (graph_append graph prefix suffix) u
  = dict_peek [] graph u ++ (if String.eqb prefix u then [suffix] else []).
Proof.
  rewrite graph_append_upsert, dict_upsert_as_set. unfold dict_peek.
  destruct (String.eqb_spec prefix u) as [->|Hne].
  - rewrite dict_get_set_same. reflexivity.
  - rewrite dict_get_set_other by congruence. rewrite app_nil_r. reflexivity.
Qed.

Lemma build_loop_peek (kmers : list string) (u : Node) :
  forall acc,
    dict_peek [] (graph_of (fold_left build_body kmers acc)) u
    = dict_peek [] (graph_of acc) u
      ++ map Py.slice_tail
           (filter (fun kmer => String.eqb (Py.slice_init kmer) u) kmers).
Proof.
  induction kmers as [|kmer kmers IH]; intros acc.
  - simpl. rewrite app_nil_r. reflexivity.
  - cbn [fold_left filter]. rewrite IH, build_body_graph, graph_append_peek.
    rewrite <- app_assoc. f_equal.
    destruct (String.eqb (Py.slice_init kmer) u); reflexivity.
Qed.

(** X2. The adjacency list of a node [u] holds the suffixes of the k-mers
    whose prefix is [u], in the order of the input, repeated k-mers
    included; it is empty (and [u] may be no key) when no k-mer has the
    prefix [u]. *)
Theorem build_adjacency_lists (kmers : list string) (u : Node) :
  dict_peek [] (graph_of (build_de_bruijn_graph kmers)) u
  = map Py.slice_tail
      (filter (fun kmer => String.eqb (Py.slice_init kmer) u) kmers).
Proof.
  unfold build_de_bruijn_graph. rewrite build_loop_peek. reflexivity.
Qed.

(** X3. The degree tables agree with the graph that is built: the
    out-degree of a node is the length of its adjacency list, and its
    in-degree is the number of times it occurs in the adjacency lists. *)
Theorem build_degrees_match_graph (kmers : list string) (u : Node) :
  let r := build_de_bruijn_graph kmers in
  degree (out_degree_of r) u
  = Z.of_nat (List.length (dict_peek [] (graph_of r) u)) /\
  degree (in_degree_of r) u
  = Z.of_nat (in_count (graph_edges (graph_of r)) u).
Proof.
  destruct (build_edges kmers) as (Hnd & Hperm & _ & Hout & Hin).
  cbv zeta. rewrite Hout, Hin.
  rewrite <- (out_count_perm _ _ u Hperm), <- (in_count_perm _ _ u Hperm).
  rewrite (out_count_graph_edges _ u Hnd). split; reflexivity.
Qed.

(** ** What find_starting_node returns and what it changes *)

(** X4. [find_starting_node] returns the first key of the graph, in scan
    order, whose out-degree is its in-degree plus one, whatever balanced
    keys come before it; when there is no such key it returns the last
    balanced key, and [None] when there is none either. *)
Theorem find_starting_node_result
  (graph : graph_t) (in_degree out_degree : degree_t) :
  find_starting_node graph in_degree out_degree
  = match find (is_source in_degree out_degree) (dict_keys graph) with
    | Some n => Some n
    | None => find (is_balanced in_degree out_degree) (rev (dict_keys graph))
    end.
Proof. apply find_starting_node_spec. Qed.

Lemma find_none_iff {A : Type} (f : A -> bool) (l : list A) :
  find f l = None <-> forall x, In x l -> f x = false.
Proof.
  split.
  - intros H x Hin. exact (find_none f l H x Hin).
  - intros H. induction l as [|a l IH]; simpl; [reflexivity|].
    rewrite (H a) by (left; reflexivity). apply IH.
    intros x Hin. apply H. right. exact Hin.
Qed.

(** X5. The node that [find_starting_node] returns is a key of the graph
    that is a source (out-degree = in-degree + 1) or balanced; it returns
    [None] exactly when no key of the graph is either, in particular for a
    graph without keys. *)
Theorem find_starting_node_none_iff
  (graph : graph_t) (in_degree out_degree : degree_t) :
  (forall n, find_starting_node graph in_degree out_degree = Some n ->
             In n (dict_keys graph) /\
             (is_source in_degree out_degree n = true \/
              is_balanced in_degree out_degree n = true)) /\
  (find_starting_node graph in_degree out_degree = None <->
   forall n, In n (dict_keys graph) ->
             is_source in_degree out_degree n = false /\
             is_balanced in_degree out_degree n = false).
Proof.
  rewrite find_starting_node_spec. unfold last_balanced.
  destruct (find (is_source in_degree out_degree) (dict_keys graph)) as [v|] eqn:Es.
  - split.
    + intros n [= <-]. apply find_some in Es. tauto.
    + split; [discriminate|]. intros H. apply find_some in Es.
      destruct Es as [Hin Hv]. destruct (H v Hin). congruence.
  - split.
    + intros n Hn. apply find_some in Hn. rewrite <- in_rev in Hn. tauto.
    + rewrite find_none_iff. rewrite find_none_iff in Es. split.
      * intros H n Hin. split; [apply Es; exact Hin|].
        apply H. rewrite <- in_rev. exact Hin.
      * intros H n Hin. rewrite <- in_rev in Hin. apply (H n Hin).
Qed.

Lemma find_starting_node_none_iff_witness :
  find_starting_node [("A", ["B"; "C"])] [("B", 1%Z); ("C", 1%Z)] [("A", 2%Z)]
  = None.
Proof.
  apply (find_starting_node_none_iff
           [("A", ["B"; "C"])] [("B", 1%Z); ("C", 1%Z)] [("A", 2%Z)]).
  intros n [<-|[]]. split; reflexivity.
Defined.

Lemma defaultdict_getitem_zero (d : degree_t) (k : Node) :
  defaultdict_getitem 0%Z d k
  = (degree d k,
     d ++ zero_entries (if existsb (String.eqb k) (dict_keys d) then [] else [k])).
Proof.
  unfold defaultdict_getitem, degree, dict_peek.
  destruct (existsb (String.eqb k) (dict_keys d)) eqn:E.
  - apply existsb_eqb_In, dict_get_In_keys in E.
    destruct (dict_get d k); [|congruence]. simpl. rewrite app_nil_r. reflexivity.
  - assert (Hnot : ~ In k (dict_keys d)).
    { intros Hin. apply existsb_eqb_In in Hin. congruence. }
    rewrite (proj2 (dict_get_None_keys d k) Hnot).
    rewrite dict_set_absent by exact Hnot. reflexivity.
Qed.

Lemma zero_entries_app (l1 l2 : list Node) :
  zero_entries (l1 ++ l2) = zero_entries l1 ++ zero_entries l2.
Proof. apply map_app. Qed.

Lemma zero_entries_keys (l : list Node) : dict_keys (zero_entries l) = l.
Proof. unfold dict_keys, zero_entries. rewrite map_map. apply map_id. Qed.

(** The tables after the scan: zero entries appended for scanned nodes that
    were missing. *)
Lemma find_starting_node_loop_tables (nodes : list Node) :
  forall (start_node : option Node) (in_degree out_degree : degree_t),
  exists added_in added_out,
    snd (fst (find_starting_node_loop nodes start_node in_degree out_degree))
    = in_degree ++ zero_entries added_in /\
    snd (find_starting_node_loop nodes start_node in_degree out_degree)
    = out_degree ++ zero_entries added_out /\
    Forall (fun n => In n nodes /\ ~ In n (dict_keys in_degree)) added_in /\
    Forall (fun n => In n nodes /\ ~ In n (dict_keys out_degree)) added_out.
Proof.
  induction nodes as [|n rest IH]; intros start_node ind outd.
  - exists [], []. simpl. rewrite !app_nil_r. repeat split; constructor.
  - cbn [find_starting_node_loop].
    rewrite (defaultdict_getitem_zero outd n), (defaultdict_getitem_zero ind n).
    set (zo := if existsb (String.eqb n) (dict_keys outd) then [] else [n]).
    set (zi := if existsb (String.eqb n) (dict_keys ind) then [] else [n]).
    assert (Hzo : Forall (fun x => In x (n :: rest) /\ ~ In x (dict_keys outd)) zo).
    { unfold zo. destruct (existsb (String.eqb n) (dict_keys outd)) eqn:E;
        constructor; [|constructor].
      split; [left; reflexivity|]. intros Hin. apply existsb_eqb_In in Hin. congruence. }
    assert (Hzi : Forall (fun x => In x (n :: rest) /\ ~ In x (dict_keys ind)) zi).
    { unfold zi. destruct (existsb (String.eqb n) (dict_keys ind)) eqn:E;
        constructor; [|constructor].
      split; [left; reflexivity|]. intros Hin. apply existsb_eqb_In in Hin. congruence. }
    destruct (degree outd n - degree ind n =? 1)%Z.
    + exists zi, zo. simpl. repeat split; assumption.
    + destruct (IH (if (degree ind n =? degree outd n)%Z then Some n else start_node)
                   (ind ++ zero_entries zi) (outd ++ zero_entries zo))
        as (ai & ao & Hi & Ho & Hai & Hao).
      exists (zi ++ ai), (zo ++ ao).
      rewrite Hi, Ho, !zero_entries_app, <- !app_assoc.
      split; [reflexivity|]. split; [reflexivity|].
      split; apply Forall_app; split; try assumption.
      * eapply Forall_impl; [|exact Hai]. intros x [Hx Hnot].
        split; [right; exact Hx|]. intros Hin. apply Hnot.
        rewrite dict_keys_app. apply in_or_app. left. exact Hin.
      * eapply Forall_impl; [|exact Hao]. intros x [Hx Hnot].
        split; [right; exact Hx|]. intros Hin. apply Hnot.
        rewrite dict_keys_app. apply in_or_app. left. exact Hin.
Qed.

Lemma degree_app_zero (d : degree_t) (added : list Node) (n : Node) :
  degree (d ++ zero_entries added) n = degree d n.
Proof.
  unfold degree, dict_peek. induction d as [|[k v] d IH]; simpl.
  - induction added as [|a added IHa]; simpl; [reflexivity|].
    destruct (String.eqb a n); [reflexivity | exact IHa].
  - destruct (String.eqb k n); [reflexivity | exact IH].
Qed.

Lemma degree_sum_app_zero (d : degree_t) (added : list Node) :
  degree_sum (d ++ zero_entries added) = degree_sum d.
Proof.
  unfold degree_sum. rewrite map_app, fold_right_app.
  replace (fold_right Z.add 0%Z (map snd (zero_entries added))) with 0%Z;
    [reflexivity|].
  induction added as [|a added IH]; simpl; [reflexivity | rewrite <- IH; reflexivity].
Qed.

(** X6. [find_starting_node] leaves the graph alone and changes the degree
    tables only by appending entries with value 0, for keys of the graph
    that the table did not have: every entry that was there keeps its place
    and value, every node reads the same degree as before, and the sums of
    the degrees are the same. *)
Theorem find_starting_node_only_adds_zero_entries
  (graph : graph_t) (in_degree out_degree : degree_t) :
  let r := find_starting_node_full graph in_degree out_degree in
  exists added_in added_out,
    snd (fst r) = in_degree ++ zero_entries added_in /\
    snd r = out_degree ++ zero_entries added_out /\
    Forall (fun n => In n (dict_keys graph) /\ ~ In n (dict_keys in_degree)) added_in /\
    Forall (fun n => In n (dict_keys graph) /\ ~ In n (dict_keys out_degree)) added_out /\
    (forall n, degree (snd (fst r)) n = degree in_degree n) /\
    (forall n, degree (snd r) n = degree out_degree n) /\
    degree_sum (snd (fst r)) = degree_sum in_degree /\
    degree_sum (snd r) = degree_sum out_degree.
Proof.
  cbv zeta. unfold find_starting_node_full.
  destruct (find_starting_node_loop_tables (dict_keys graph) None in_degree out_degree)
    as (ai & ao & Hi & Ho & Hai & Hao).
  exists ai, ao. rewrite Hi, Ho.
  split; [reflexivity|]. split; [reflexivity|].
  split; [exact Hai|]. split; [exact Hao|].
  split; [intros n; apply degree_app_zero|].
  split; [intros n; apply degree_app_zero|].
  split; apply degree_sum_app_zero.
Qed.

(** ** Errors, length and side effects of reconstruct_dna *)

Lemma index_last_length (s c : string) :
  Py.index_last s = Ok c -> String.length c = 1.
Proof.
  induction s as [|a s IH]; [discriminate|].
  destruct s as [|a' s]; [intros [= <-]; reflexivity | exact IH].
Qed.

Lemma index_last_cases (s : string) :
  (exists c, Py.index_last s = Ok c) \/ Py.index_last s = Raise IndexError.
Proof.
  destruct s as [|a s]; [right; reflexivity|].
  left. destruct (index_last_nonempty (String a s)) as [c Hc]; [discriminate|].
  eexists. exact Hc.
Qed.

Lemma last_chars_cases (path : list Node) :
  (exists cs, last_chars path = Ok cs) \/ last_chars path = Raise IndexError.
Proof.
  induction path as [|n path IH]; [left; exists []; reflexivity|].
  cbn [last_chars].
  destruct (index_last_cases n) as [[c Hc]|Hc]; rewrite Hc; cbn [bind];
    [|right; reflexivity].
  destruct IH as [[cs Hcs]|Hcs]; rewrite Hcs; cbn [bind];
    [left; eexists; reflexivity | right; reflexivity].
Qed.

Lemma last_chars_ok (path : list Node) :
  forall cs, last_chars path = Ok cs ->
             List.length cs = List.length path /\
             Forall (fun c => String.length c = 1) cs.
Proof.
  induction path as [|n path IH]; intros cs.
  - intros [= <-]. split; [reflexivity | constructor].
  - cbn [last_chars].
    destruct (Py.index_last n) as [c|e] eqn:Hc; cbn [bind]; [|discriminate].
    destruct (last_chars path) as [cs'|e] eqn:Hcs; cbn [bind]; [|discriminate].
    intros [= <-]. destruct (IH cs' eq_refl) as [Hlen Hall].
    split; [simpl; lia|]. constructor; [|exact Hall].
    apply (index_last_length n). exact Hc.
Qed.

Lemma successors_nonempty_get (graph : graph_t) (k : Node) (adj : list Node) :
  successors_nonempty graph -> dict_get graph k = Some adj ->
  Forall (fun n => n <> "") adj.
Proof.
  induction 1 as [|[k0 a0] g Ha _ IH]; simpl; [discriminate|].
  destruct (String.eqb k0 k); [intros [= <-]; exact Ha | exact IH].
Qed.

Lemma successors_nonempty_set (graph : graph_t) (k : Node) (adj : list Node) :
  successors_nonempty graph -> Forall (fun n => n <> "") adj ->
  successors_nonempty (dict_set graph k adj).
Proof.
  intros H Hadj. induction H as [|[k0 a0] g Ha Hg IH]; simpl.
  - repeat constructor. exact Hadj.
  - destruct (String.eqb k0 k); constructor; assumption.
Qed.

Lemma walk_nonempty_step (s s' : walk_state) :
  walk_nonempty s -> walk_step_rel s s' -> walk_nonempty s'.
Proof.
  intros [Hg Hseq] Hstep. unfold walk_nonempty.
  destruct Hstep as [g below current adj next_node path Hget
                    | g below current path Hget
                    | g below current path Hget];
    cbn [st_graph st_stack st_path] in *.
  - pose proof (successors_nonempty_get _ _ _ Hg Hget) as Hadj.
    apply Forall_app in Hadj. destruct Hadj as [Hadj Hnext].
    split; [apply successors_nonempty_set; assumption|].
    destruct below as [|b below]; cbn [app tl] in *.
    + constructor; [exact (Forall_inv Hnext) | exact Hseq].
    + rewrite !Forall_app in *. tauto.
  - split; [exact Hg|]. rewrite <- app_assoc in Hseq. exact Hseq.
  - split; [apply successors_nonempty_set; [exact Hg | constructor]|].
    rewrite <- app_assoc in Hseq. exact Hseq.
Qed.

Lemma reconstruct_dna_cases (graph : graph_t) (start_node : Node) :
  (exists dna, snd (reconstruct_dna graph start_node) = Ok dna) \/
  snd (reconstruct_dna graph start_node) = Raise IndexError.
Proof.
  unfold reconstruct_dna. cbv zeta. cbn [snd].
  destruct (walk_final_path graph start_node) as (rest & Hpath & _).
  rewrite Hpath. cbn [assemble].
  destruct (last_chars_cases rest) as [[cs Hcs]|Hcs]; rewrite Hcs; cbn [bind];
    [left; eexists; reflexivity | right; reflexivity].
Qed.

Lemma reconstruct_dna_ok (graph : graph_t) (start_node : Node) :
  successors_nonempty graph ->
  exists dna, snd (reconstruct_dna graph start_node) = Ok dna.
Proof.
  intros Hg. unfold reconstruct_dna. cbv zeta. cbn [snd].
  destruct (walk_final_path graph start_node) as (rest & Hpath & _).
  assert (Hinv : walk_nonempty (walk_final graph start_node)).
  { apply (walk_final_invariant walk_nonempty); [apply walk_nonempty_step|].
    split; [exact Hg | constructor]. }
  destruct Hinv as [_ Hseq]. rewrite walk_final_stack, Hpath in Hseq.
  cbn [app tl] in Hseq. rewrite Hpath. cbn [assemble].
  destruct (last_chars_nonempty_nodes rest Hseq) as (cs & Hcs & _).
  rewrite Hcs. cbn [bind]. eexists. reflexivity.
Qed.

(** X7. [reconstruct_dna] raises no exception other than IndexError, and it
    returns a string whenever no successor stored in the graph is the empty
    string; the start node itself may be empty. *)
Theorem reconstruct_dna_raises_only_index_error
  (graph : graph_t) (start_node : Node) :
  ((exists dna, snd (reconstruct_dna graph start_node) = Ok dna) \/
   snd (reconstruct_dna graph start_node) = Raise IndexError) /\
  (successors_nonempty graph ->
   exists dna, snd (reconstruct_dna graph start_node) = Ok dna).
Proof.
  split; [apply reconstruct_dna_cases | apply reconstruct_dna_ok].
Qed.

Lemma reconstruct_dna_raises_only_index_error_witness :
  exists dna, snd (reconstruct_dna [("", ["A"; "B"])] "") = Ok dna.
Proof.
  apply (reconstruct_dna_raises_only_index_error [("", ["A"; "B"])] "").
  repeat constructor; discriminate.
Defined.

Lemma reconstruct_dna_ok_length (graph : graph_t) (start_node : Node) (dna : string) :
  snd (reconstruct_dna graph start_node) = Ok dna ->
  String.length dna + edge_count (fst (reconstruct_dna graph start_node))
  = String.length start_node + edge_count graph /\
  exists suffix, dna = (start_node ++ suffix)%string.
Proof.
  unfold reconstruct_dna. cbv zeta. cbn [fst snd].
  destruct (walk_final_path graph start_node) as (rest & Hpath & Hcount).
  rewrite Hpath. cbn [assemble].
  destruct (last_chars rest) as [cs|e] eqn:Hcs; cbn [bind]; [|discriminate].
  intros [= <-]. destruct (last_chars_ok rest cs Hcs) as [Hlen Hone].
  split.
  - rewrite join_length. cbn [map].
    change (list_sum (String.length start_node :: map String.length cs))
      with (String.length start_node + list_sum (map String.length cs)).
    rewrite (list_sum_all_one cs Hone). lia.
  - exists (Py.join cs). apply join_cons.
Qed.

(** X8. A string returned by [reconstruct_dna] begins with the start node
    and has one more character for every edge the walk removed from the
    graph. *)
Theorem reconstruct_dna_length_by_removed_edges
  (graph : graph_t) (start_node : Node) (dna : string) :
  snd (reconstruct_dna graph start_node) = Ok dna ->
  String.length dna + edge_count (fst (reconstruct_dna graph start_node))
  = String.length start_node + edge_count graph /\
  exists suffix, dna = (start_node ++ suffix)%string.
Proof. apply reconstruct_dna_ok_length. Qed.

Lemma reconstruct_dna_length_by_removed_edges_witness :
  String.length "AB" + edge_count [("A", []); ("C", ["D"]); ("B", [])]
  = String.length "A" + edge_count [("A", ["B"]); ("C", ["D"])] /\
  exists suffix, "AB" = ("A" ++ suffix)%string.
Proof.
  exact (reconstruct_dna_length_by_removed_edges
           [("A", ["B"]); ("C", ["D"])] "A" "AB" eq_refl).
Defined.

(** The walk from a node whose entry is present and empty. *)
Lemma walk_final_empty_entry (graph : graph_t) (start_node : Node) :
  dict_get graph start_node = Some [] ->
  walk_final graph start_node = mkState graph [] [start_node].
Proof.
  intros Hget. unfold walk_final. apply (walk_run_loop 1).
  - split; [|reflexivity].
    eapply steps_cons; [|apply steps_refl].
    apply walk_step_complete. exact (step_pop graph [] start_node [] Hget).
  - unfold walk_measure, walk_init. simpl. lia.
Qed.

(** X9. A graph is used up by one run: calling [reconstruct_dna] again on
    the graph a first call left behind, from the same start node or from
    any node of the path the first call built, returns that node alone and
    changes nothing. *)
Theorem reconstruct_dna_second_run (graph : graph_t) (start_node : Node) :
  let graph' := fst (reconstruct_dna graph start_node) in
  reconstruct_dna graph' start_node = (graph', Ok start_node) /\
  (forall n, In n (st_path (walk_final graph start_node)) ->
             reconstruct_dna graph' n = (graph', Ok n)).
Proof.
  cbv zeta.
  assert (Hall : forall n, In n (st_path (walk_final graph start_node)) ->
                           reconstruct_dna (fst (reconstruct_dna graph start_node)) n
                           = (fst (reconstruct_dna graph start_node), Ok n)).
  { intros n Hn. destruct (walk_inv_final graph start_node) as [Hdone _ _ _].
    change (fst (reconstruct_dna graph start_node))
      with (st_graph (walk_final graph start_node)).
    unfold reconstruct_dna. cbv zeta.
    rewrite (walk_final_empty_entry _ n (Hdone n Hn)). reflexivity. }
  split; [|exact Hall].
  apply Hall. destruct (walk_final_path graph start_node) as (rest & Hpath & _).
  rewrite Hpath. left. reflexivity.
Qed.

Lemma reconstruct_dna_second_run_witness :
  reconstruct_dna (fst (reconstruct_dna (graph_of (build_de_bruijn_graph linear_kmers))
                                        "AA")) "CD"
  = (fst (reconstruct_dna (graph_of (build_de_bruijn_graph linear_kmers)) "AA"),
     Ok "CD").
Proof.
  apply (reconstruct_dna_second_run
           (graph_of (build_de_bruijn_graph linear_kmers)) "AA").
  vm_compute. right. right. right. left. reflexivity.
Defined.

Lemma walk_keys_step (graph0 : graph_t) (s s' : walk_state) :
  walk_keys graph0 s -> walk_step_rel s s' -> walk_keys graph0 s'.
Proof.
  intros (added & Hkeys & Hadded) Hstep. unfold walk_keys.
  destruct Hstep as [g below current adj next_node path Hget
                    | g below current path Hget
                    | g below current path Hget];
    cbn [st_graph st_stack st_path] in *.
  - exists added. split; [|exact Hadded].
    rewrite dict_keys_set_present; [exact Hkeys|].
    apply dict_get_In_keys. congruence.
  - exists added. split; [exact Hkeys|].
    eapply Forall_impl; [|exact Hadded]. intros n [Hn Hnot].
    split; [right; exact Hn | exact Hnot].
  - apply dict_get_None_keys in Hget.
    exists (added ++ [current]). split.
    + rewrite dict_set_absent by exact Hget.
      rewrite dict_keys_app, Hkeys, <- app_assoc. reflexivity.
    + apply Forall_app. split.
      * eapply Forall_impl; [|exact Hadded]. intros n [Hn Hnot].
        split; [right; exact Hn | exact Hnot].
      * constructor; [|constructor]. split; [left; reflexivity|].
        intros Hin. apply Hget. rewrite Hkeys. apply in_or_app. left. exact Hin.
Qed.

(** X10. [reconstruct_dna] removes no key of the graph and moves none: the
    keys after the call are the keys before it, followed by nodes of the
    path that were no keys before (the nodes without outgoing edges that
    the walk read). *)
Theorem reconstruct_dna_keeps_keys (graph : graph_t) (start_node : Node) :
  exists added,
    dict_keys (fst (reconstruct_dna graph start_node)) = dict_keys graph ++ added /\
    Forall (fun n => In n (st_path (walk_final graph start_node)) /\
                     ~ In n (dict_keys graph)) added.
Proof.
  unfold reconstruct_dna. cbv zeta. cbn [fst].
  apply (walk_final_invariant (walk_keys graph)).
  - apply walk_keys_step.
  - exists []. split; [symmetry; apply app_nil_r | constructor].
Qed.

(** ** Outcomes of main *)

Lemma graph_append_successors_nonempty (graph : graph_t) (prefix suffix : Node) :
  successors_nonempty graph -> suffix <> "" ->
  successors_nonempty (graph_append graph prefix suffix).
Proof.
  intros H Hs. rewrite graph_append_upsert, dict_upsert_as_set.
  apply successors_nonempty_set; [exact H|].
  apply Forall_app. split; [|repeat constructor; exact Hs].
  unfold dict_peek. destruct (dict_get graph prefix) as [adj|] eqn:E.
  - exact (successors_nonempty_get _ _ _ H E).
  - constructor.
Qed.

Lemma build_successors_nonempty (kmers : list string) :
  Forall (fun kmer => 2 <= String.length kmer) kmers ->
  successors_nonempty (graph_of (build_de_bruijn_graph kmers)).
Proof.
  intros H. unfold build_de_bruijn_graph.
  assert (Hgen : forall acc, successors_nonempty (graph_of acc) ->
                   successors_nonempty (graph_of (fold_left build_body kmers acc))).
  { induction H as [|kmer kmers Hk _ IH]; intros acc Hacc; simpl; [exact Hacc|].
    apply IH. rewrite build_body_graph.
    apply graph_append_successors_nonempty; [exact Hacc|].
    intros E. pose proof (slice_tail_length kmer) as L. rewrite E in L.
    simpl in L. lia. }
  apply Hgen. constructor.
Qed.

Lemma main_unfold (read_kmers_from_file : string -> list string) (input_file : string) :
  main read_kmers_from_file input_file
  = let r := build_de_bruijn_graph (read_kmers_from_file input_file) in
    match find_starting_node (graph_of r) (in_degree_of r) (out_degree_of r) with
    | None => Raise ValueError
    | Some start_node => snd (reconstruct_dna (graph_of r) start_node)
    end.
Proof.
  unfold main. destruct (build_de_bruijn_graph (read_kmers_from_file input_file))
    as [[g i] o]. reflexivity.
Qed.

(** X11. The steps of [main] between reading and writing (lines 106-116),
    for the list of k-mers that the reader has returned, whatever the list:
    they raise ValueError, the one of line 113, exactly when
    [find_starting_node] finds no node in the graph of the list; the only
    other exception they raise is IndexError, and they do not raise that
    one when every k-mer has at least two characters.  What opening,
    decoding or writing a file can raise is outside these steps. *)
Theorem main_failures (read_kmers_from_file : string -> list string)
  (input_file : string) :
  let r := build_de_bruijn_graph (read_kmers_from_file input_file) in
  (main read_kmers_from_file input_file = Raise ValueError <->
   find_starting_node (graph_of r) (in_degree_of r) (out_degree_of r) = None) /\
  ((exists dna, main read_kmers_from_file input_file = Ok dna) \/
   main read_kmers_from_file input_file = Raise ValueError \/
   main read_kmers_from_file input_file = Raise IndexError) /\
  (Forall (fun kmer => 2 <= String.length kmer) (read_kmers_from_file input_file) ->
   main read_kmers_from_file input_file <> Raise IndexError).
Proof.
  cbv zeta. rewrite main_unfold. cbv zeta.
  set (r := build_de_bruijn_graph (read_kmers_from_file input_file)).
  destruct (find_starting_node (graph_of r) (in_degree_of r) (out_degree_of r))
    as [start_node|].
  - pose proof (reconstruct_dna_cases (graph_of r) start_node) as Hcases.
    split; [|split].
    + split; [|discriminate]. intros H.
      destruct Hcases as [[dna Hd]|Hd]; congruence.
    + destruct Hcases as [[dna Hd]|Hd]; [left; exists dna; exact Hd | right; right; exact Hd].
    + intros Hk. destruct (reconstruct_dna_ok (graph_of r) start_node) as [dna Hd].
      * apply build_successors_nonempty. exact Hk.
      * congruence.
  - split; [|split].
    + split; reflexivity.
    + right. left. reflexivity.
    + intros _. discriminate.
Qed.

Lemma main_failures_witness :
  main (fun _ => ["AB"; "AC"]) "input.txt" <> Raise IndexError /\
  main (fun _ => ["AB"; "AC"]) "input.txt" = Raise ValueError.
Proof.
  destruct (main_failures (fun _ => ["AB"; "AC"]) "input.txt") as (Hv & _ & Hi).
  split.
  - apply Hi. repeat constructor.
  - apply Hv. reflexivity.
Defined.

Lemma build_nodes_len_minus_one (j : nat) (kmers : list string) :
  Forall (fun kmer => String.length kmer - 1 = j) kmers ->
  graph_nodes_len j (graph_of (build_de_bruijn_graph kmers)).
Proof.
  intros H. unfold build_de_bruijn_graph.
  assert (Hgen : forall acc, graph_nodes_len j (graph_of acc) ->
                   graph_nodes_len j (graph_of (fold_left build_body kmers acc))).
  { induction H as [|kmer kmers Hk _ IH]; intros acc Hacc; simpl; [exact Hacc|].
    apply IH. rewrite build_body_graph.
    apply graph_nodes_len_append; [exact Hacc| |].
    - rewrite slice_init_length. exact Hk.
    - rewrite slice_tail_length. exact Hk. }
  apply Hgen. constructor.
Qed.

(** When the start node has an outgoing edge the walk follows it: the path
    has a second node. *)
Lemma walk_final_path_second (graph : graph_t) (start_node : Node) :
  dict_peek [] graph start_node <> [] ->
  exists x rest, st_path (walk_final graph start_node) = start_node :: x :: rest.
Proof.
  intros Hne.
  destruct (walk_final_path graph start_node) as (rest & Hpath & Hcount).
  enough (Hlt : edge_count (st_graph (walk_final graph start_node)) < edge_count graph).
  { destruct rest as [|x rest]; [simpl in Hcount; lia|]. exists x, rest. exact Hpath. }
  destruct (walk_final_run graph start_node) as (n & _ & Hsteps & Hexit).
  unfold dict_peek in Hne.
  destruct (dict_get graph start_node) as [adj|] eqn:E; [|congruence].
  destruct (list_snoc_cases adj) as [->|(adj' & x & ->)]; [congruence|].
  assert (Hstep : walk_step (walk_init graph start_node)
                  = Some (mkState (dict_set graph start_node adj')
                                  (([] ++ [start_node]) ++ [x]) [])).
  { apply walk_step_complete. exact (step_push graph [] start_node adj' x [] E). }
  pose proof (edge_count_set graph start_node adj') as Hset.
  unfold dict_peek in Hset. rewrite E, length_app in Hset. simpl in Hset.
  remember (walk_final graph start_node) as final eqn:Ef. clear Ef Hpath Hcount.
  inversion Hsteps as [s Hs|m s s1 s' Hs1 Hrest]; subst.
  - rewrite Hstep in Hexit. discriminate.
  - rewrite Hstep in Hs1. injection Hs1 as <-.
    assert (Hle : edge_count (st_graph final)
                  <= edge_count (dict_set graph start_node adj')).
    { apply (walk_steps_invariant
               (fun s => edge_count (st_graph s)
                         <= edge_count (dict_set graph start_node adj'))
               ) with (n := m)
               (s := mkState (dict_set graph start_node adj')
                             (([] ++ [start_node]) ++ [x]) []).
      - intros s s' Hs Hrel. apply walk_step_rel_counts in Hrel. lia.
      - exact Hrest.
      - simpl. lia. }
    lia.
Qed.

Lemma short_kmer_edge (kmer : string) :
  String.length kmer <= 1 -> kmer_edge kmer = ("", "").
Proof. destruct kmer as [|c [|c' t]]; simpl; intros H; [reflexivity | reflexivity | lia]. Qed.

(** X12. When every k-mer has at most one character (one empty k-mer is
    what an empty text gives), all nodes are the empty string and [main]
    raises IndexError, not ValueError: a start node is found, and the
    assembly fails at [node[-1]]. *)
Theorem main_short_kmers_raise_index_error (kmers : list string) (input_file : string) :
  kmers <> [] ->
  Forall (fun kmer => String.length kmer <= 1) kmers ->
  main (fun _ => kmers) input_file = Raise IndexError.
Proof.
  intros Hne Hshort. rewrite main_unfold. cbv zeta.
  destruct (build_edges kmers) as (Hnd & Hperm & Hkeys & Hout & Hin).
  set (r := build_de_bruijn_graph kmers) in *.
  assert (Hlen : graph_nodes_len 0 (graph_of r)).
  { apply build_nodes_len_minus_one. eapply Forall_impl; [|exact Hshort].
    intros kmer Hk. simpl in Hk. lia. }
  assert (Hsame : map fst (map kmer_edge kmers) = map snd (map kmer_edge kmers)).
  { rewrite !map_map. apply map_ext_in. intros kmer Hk.
    rewrite Forall_forall in Hshort. rewrite (short_kmer_edge kmer (Hshort kmer Hk)).
    reflexivity. }
  assert (Hdeg : forall u, degree (out_degree_of r) u = degree (in_degree_of r) u).
  { intros u. rewrite Hout, Hin. unfold out_count, in_count. rewrite Hsame. reflexivity. }
  assert (Hkey : exists k, In k (dict_keys (graph_of r))).
  { destruct kmers as [|kmer kmers]; [congruence|].
    exists (Py.slice_init kmer). apply Hkeys. left. reflexivity. }
  (* the start node *)
  assert (Hfind : exists start_node,
             find_starting_node (graph_of r) (in_degree_of r) (out_degree_of r)
             = Some start_node /\ In start_node (dict_keys (graph_of r))).
  { rewrite find_starting_node_spec. unfold last_balanced.
    rewrite find_all_false
      by (intros u; unfold is_source; rewrite Hdeg, Z.sub_diag; reflexivity).
    destruct (rev (dict_keys (graph_of r))) as [|k ks] eqn:Erev.
    { apply (f_equal (@rev string)) in Erev. rewrite rev_involutive in Erev.
      destruct Hkey as [k Hk]. rewrite Erev in Hk. contradiction. }
    exists k. cbn [find]. unfold is_balanced. rewrite Hdeg, Z.eqb_refl.
    split; [reflexivity|]. apply in_rev. rewrite Erev. left. reflexivity. }
  destruct Hfind as (start_node & Hfind & Hin_keys). rewrite Hfind.
  pose proof (graph_nodes_len_keys _ _ _ Hlen Hin_keys) as Hstart.
  (* its first edge is followed *)
  assert (Hedge : dict_peek [] (graph_of r) start_node <> []).
  { intros Hnil. pose proof (out_count_graph_edges (graph_of r) start_node Hnd) as Hc.
    rewrite Hnil, (out_count_perm _ _ start_node Hperm) in Hc. simpl in Hc.
    unfold out_count in Hc. apply (count_occ_not_In string_dec) in Hc. apply Hc.
    rewrite map_map. apply Hkeys in Hin_keys. exact Hin_keys. }
  destruct (walk_final_path_second _ _ Hedge) as (x & rest & Hpath).
  destruct (walk_final_nodes_len 0 _ _ Hlen Hstart) as (_ & _ & Hall).
  rewrite Hpath in Hall.
  assert (Hx : x = "").
  { apply Forall_inv_tail, Forall_inv in Hall. destruct x; [reflexivity | discriminate]. }
  unfold reconstruct_dna. cbv zeta. cbn [snd]. rewrite Hpath. cbn [assemble].
  rewrite (last_chars_empty_node x rest Hx). reflexivity.
Qed.

Lemma main_short_kmers_raise_index_error_witness :
  main (fun _ => ["A"; ""; "C"]) "input.txt" = Raise IndexError.
Proof.
  apply (main_short_kmers_raise_index_error ["A"; ""; "C"] "input.txt").
  - discriminate.
  - repeat constructor.
Defined.

(** X13. When the k-mers all have length [k] and [main] returns a string,
    the string has [k - 1] characters plus one per edge that the walk
    removed: its length is at most [N + k - 1] for [N] k-mers, and every
    edge left in the graph makes it one character shorter. *)
Theorem main_output_length (k : nat) (kmers : list string) (input_file : string)
  (dna : string) :
  Forall (fun kmer => String.length kmer = k) kmers ->
  main (fun _ => kmers) input_file = Ok dna ->
  let r := build_de_bruijn_graph kmers in
  exists start_node,
    find_starting_node (graph_of r) (in_degree_of r) (out_degree_of r)
    = Some start_node /\
    String.length dna + edge_count (fst (reconstruct_dna (graph_of r) start_node))
    = List.length kmers + (k - 1) /\
    String.length dna <= List.length kmers + (k - 1).
Proof.
  intros Hk Hmain. rewrite main_unfold in Hmain. cbv zeta in *.
  set (r := build_de_bruijn_graph kmers) in *.
  destruct (find_starting_node (graph_of r) (in_degree_of r) (out_degree_of r))
    as [start_node|] eqn:Hfind; [|discriminate].
  exists start_node. split; [reflexivity|].
  pose proof (build_nodes_len k kmers Hk) as Hlen. fold r in Hlen.
  pose proof (find_starting_node_In _ _ _ _ Hfind) as Hin.
  pose proof (graph_nodes_len_keys _ _ _ Hlen Hin) as Hstart.
  destruct (reconstruct_dna_ok_length _ _ _ Hmain) as [Hsum _].
  destruct (build_loop_totals kmers ([], [], [])) as (Hedges & _).
  fold (build_de_bruijn_graph kmers) in Hedges. fold r in Hedges.
  cbn in Hedges. rewrite Hstart, Hedges in Hsum. lia.
Qed.

Lemma main_output_length_witness :
  exists start_node,
    find_starting_node
      (graph_of (build_de_bruijn_graph two_component_kmers))
      (in_degree_of (build_de_bruijn_graph two_component_kmers))
      (out_degree_of (build_de_bruijn_graph two_component_kmers))
    = Some start_node /\
    String.length "AB"
    + edge_count (fst (reconstruct_dna
                         (graph_of (build_de_bruijn_graph two_component_kmers))
                         start_node))
    = 2 + (2 - 1) /\
    String.length "AB" <= 2 + (2 - 1).
Proof.
  apply (main_output_length 2 two_component_kmers "input.txt" "AB").
  - repeat constructor.
  - reflexivity.
Defined.

(** ** read_kmers_from_file: strip and split *)

Lemma split_cons (sep : ascii) (s : string) :
  exists piece pieces, PyStr.split sep s = piece :: pieces.
Proof.
  destruct s as [|c t]; simpl.
  - eexists. eexists. reflexivity.
  - destruct (Ascii.eqb c sep); [eexists; eexists; reflexivity|].
    destruct (PyStr.split sep t); eexists; eexists; reflexivity.
Qed.

Lemma split_length (sep : ascii) (s : string) :
  List.length (PyStr.split sep s) = S (PyStr.count sep s).
Proof.
  induction s as [|c t IH]; simpl; [reflexivity|].
  destruct (Ascii.eqb c sep); simpl; [rewrite IH; reflexivity|].
  destruct (PyStr.split sep t); simpl in *; lia.
Qed.

Lemma split_no_sep (sep : ascii) (s : string) :
  Forall (fun piece => PyStr.count sep piece = 0) (PyStr.split sep s).
Proof.
  induction s as [|c t IH]; simpl; [repeat constructor|].
  destruct (Ascii.eqb c sep) eqn:E; [constructor; [reflexivity | exact IH]|].
  destruct (PyStr.split sep t) as [|piece pieces].
  - repeat constructor. simpl. rewrite E. reflexivity.
  - inversion IH; subst. constructor; [|assumption]. simpl. rewrite E. assumption.
Qed.

Lemma join_with_cons (sep x y : string) (l : list string) :
  PyStr.join_with sep (x :: y :: l)
  = (x ++ sep ++ PyStr.join_with sep (y :: l))%string.
Proof. reflexivity. Qed.

Lemma join_split (sep : ascii) (s : string) :
  PyStr.join_with (String sep "") (PyStr.split sep s) = s.
Proof.
  induction s as [|c t IH]; [reflexivity|]. cbn [PyStr.split].
  destruct (split_cons sep t) as (piece & pieces & E). rewrite E in *.
  destruct (Ascii.eqb_spec c sep) as [->|Hne].
  - rewrite join_with_cons, IH. reflexivity.
  - rewrite <- IH at 1. destruct pieces; reflexivity.
Qed.

Lemma split_piece (sep : ascii) (piece : string) :
  PyStr.count sep piece = 0 -> PyStr.split sep piece = [piece].
Proof.
  induction piece as [|c t IH]; simpl; [reflexivity|].
  destruct (Ascii.eqb c sep); [discriminate|]. intros H.
  rewrite (IH H). reflexivity.
Qed.

Lemma split_piece_sep (sep : ascii) (piece rest : string) :
  PyStr.count sep piece = 0 ->
  PyStr.split sep (piece ++ String sep rest)%string = piece :: PyStr.split sep rest.
Proof.
  induction piece as [|c t IH]; simpl.
  - rewrite Ascii.eqb_refl. reflexivity.
  - destruct (Ascii.eqb c sep); [discriminate|]. intros H.
    rewrite (IH H). reflexivity.
Qed.

Lemma split_join (sep : ascii) (l : list string) :
  l <> [] ->
  Forall (fun piece => PyStr.count sep piece = 0) l ->
  PyStr.split sep (PyStr.join_with (String sep "") l) = l.
Proof.
  intros Hne H. induction H as [|x l Hx Hl IH]; [congruence|].
  destruct l as [|y l].
  - simpl. apply split_piece. exact Hx.
  - rewrite join_with_cons. cbn [append].
    rewrite (split_piece_sep sep x _ Hx). f_equal. apply IH. discriminate.
Qed.

(** *** White space at the two ends *)

Lemma lstrip_split (s : string) :
  exists ws, s = (ws ++ PyStr.lstrip s)%string /\
             PyStr.all_chars PyStr.isspace ws = true.
Proof.
  induction s as [|c t IH]; simpl.
  - exists "". split; reflexivity.
  - destruct (PyStr.isspace c) eqn:E.
    + destruct IH as (ws & Hs & Hws). exists (String c ws). simpl.
      rewrite E, Hws, <- Hs. split; reflexivity.
    + exists "". split; reflexivity.
Qed.

Lemma rstrip_split (s : string) :
  exists ws, s = (PyStr.rstrip s ++ ws)%string /\
             PyStr.all_chars PyStr.isspace ws = true.
Proof.
  induction s as [|c t IH]; simpl.
  - exists "". split; reflexivity.
  - destruct IH as (ws & Hs & Hws).
    destruct (PyStr.rstrip t) as [|c' r] eqn:Er.
    + simpl in Hs. subst t. destruct (PyStr.isspace c) eqn:E.
      * exists (String c ws). simpl. rewrite E, Hws. split; reflexivity.
      * exists ws. split; [reflexivity | exact Hws].
    + exists ws. split; [|exact Hws]. simpl. rewrite Hs at 1. reflexivity.
Qed.

Lemma strip_split (s : string) :
  exists ws1 ws2,
    s = (ws1 ++ PyStr.strip s ++ ws2)%string /\
    PyStr.all_chars PyStr.isspace ws1 = true /\
    PyStr.all_chars PyStr.isspace ws2 = true.
Proof.
  destruct (lstrip_split s) as (ws1 & H1 & Hws1).
  destruct (rstrip_split (PyStr.lstrip s)) as (ws2 & H2 & Hws2).
  exists ws1, ws2. unfold PyStr.strip. rewrite <- H2, <- H1. repeat split; assumption.
Qed.

Lemma count_append (c : ascii) (s1 s2 : string) :
  PyStr.count c (s1 ++ s2)%string = PyStr.count c s1 + PyStr.count c s2.
Proof. induction s1 as [|a s1 IH]; simpl; [|rewrite IH]; lia. Qed.

Lemma count_space_only (c : ascii) (ws : string) :
  PyStr.isspace c = false -> PyStr.all_chars PyStr.isspace ws = true ->
  PyStr.count c ws = 0.
Proof.
  intros Hc. induction ws as [|a ws IH]; simpl; [reflexivity|].
  intros H. apply andb_true_iff in H. destruct H as [Ha Hws].
  destruct (Ascii.eqb_spec a c) as [->|]; [congruence|]. simpl. apply IH. exact Hws.
Qed.

Lemma strip_count (c : ascii) (s : string) :
  PyStr.isspace c = false -> PyStr.count c (PyStr.strip s) = PyStr.count c s.
Proof.
  intros Hc. destruct (strip_split s) as (ws1 & ws2 & Hs & H1 & H2).
  rewrite Hs at 2. rewrite !count_append.
  rewrite (count_space_only c ws1 Hc H1), (count_space_only c ws2 Hc H2). lia.
Qed.

(** X14. The reader returns at least one k-mer: one more than there are
    commas in the text, and none of them contains a comma.  In particular
    the empty list of k-mers never comes out of a text. *)
Theorem kmers_of_text_count (content : string) :
  List.length (kmers_of_text content) = S (PyStr.count "," content) /\
  Forall (fun kmer => PyStr.count "," kmer = 0) (kmers_of_text content) /\
  kmers_of_text content <> [].
Proof.
  unfold kmers_of_text. split; [|split].
  - rewrite split_length, strip_count; reflexivity.
  - apply split_no_sep.
  - destruct (split_cons "," (PyStr.strip content)) as (p & ps & E).
    rewrite E. discriminate.
Qed.

(** X15. Joining the k-mers that the reader returns with commas gives the
    text back, except for white space at its two ends: white space next to
    a comma or inside a k-mer stays in the k-mers. *)
Theorem kmers_of_text_join (content : string) :
  exists ws1 ws2,
    content = (ws1 ++ PyStr.join_with "," (kmers_of_text content) ++ ws2)%string /\
    PyStr.all_chars PyStr.isspace ws1 = true /\
    PyStr.all_chars PyStr.isspace ws2 = true.
Proof.
  unfold kmers_of_text. rewrite (join_split "," (PyStr.strip content)).
  apply strip_split.
Qed.

Lemma lstrip_space_prefix (ws s : string) :
  PyStr.all_chars PyStr.isspace ws = true ->
  PyStr.lstrip (ws ++ s)%string = PyStr.lstrip s.
Proof.
  induction ws as [|a ws IH]; simpl; [reflexivity|].
  intros H. apply andb_true_iff in H. destruct H as [Ha Hws].
  rewrite Ha. apply IH. exact Hws.
Qed.

Lemma lstrip_space_only (ws : string) :
  PyStr.all_chars PyStr.isspace ws = true -> PyStr.lstrip ws = "".
Proof.
  intros H. rewrite <- (str_append_nil_r ws). rewrite lstrip_space_prefix by exact H.
  reflexivity.
Qed.

Lemma rstrip_space_only (ws : string) :
  PyStr.all_chars PyStr.isspace ws = true -> PyStr.rstrip ws = "".
Proof.
  induction ws as [|a ws IH]; simpl; [reflexivity|].
  intros H. apply andb_true_iff in H. destruct H as [Ha Hws].
  rewrite (IH Hws), Ha. reflexivity.
Qed.

Lemma rstrip_space_suffix (body ws : string) :
  PyStr.all_chars (fun c => negb (PyStr.isspace c)) body = true ->
  PyStr.all_chars PyStr.isspace ws = true ->
  PyStr.rstrip (body ++ ws)%string = body.
Proof.
  intros Hbody Hws. induction body as [|c body IH]; simpl.
  - apply rstrip_space_only. exact Hws.
  - simpl in Hbody. apply andb_true_iff in Hbody. destruct Hbody as [Hc Hb].
    rewrite (IH Hb). apply negb_true_iff in Hc. rewrite Hc.
    destruct body; reflexivity.
Qed.

Lemma strip_framed (ws1 body ws2 : string) :
  PyStr.all_chars (fun c => negb (PyStr.isspace c)) body = true ->
  PyStr.all_chars PyStr.isspace ws1 = true ->
  PyStr.all_chars PyStr.isspace ws2 = true ->
  PyStr.strip (ws1 ++ body ++ ws2)%string = body.
Proof.
  intros Hbody H1 H2. unfold PyStr.strip. rewrite lstrip_space_prefix by exact H1.
  destruct body as [|c body].
  - simpl. rewrite lstrip_space_only by exact H2. reflexivity.
  - pose proof Hbody as Hb. simpl in Hb. apply andb_true_iff in Hb.
    destruct Hb as [Hc _]. apply negb_true_iff in Hc.
    cbn [append PyStr.lstrip]. rewrite Hc.
    apply (rstrip_space_suffix (String c body) ws2 Hbody H2).
Qed.

Lemma all_chars_append (p : ascii -> bool) (s1 s2 : string) :
  PyStr.all_chars p (s1 ++ s2)%string
  = PyStr.all_chars p s1 && PyStr.all_chars p s2.
Proof.
  induction s1 as [|a s1 IH]; simpl; [reflexivity|].
  rewrite IH. apply andb_assoc.
Qed.

Lemma all_chars_weaken (p q : ascii -> bool) (s : string) :
  (forall c, p c = true -> q c = true) ->
  PyStr.all_chars p s = true -> PyStr.all_chars q s = true.
Proof.
  intros H. induction s as [|a s IH]; simpl; [reflexivity|].
  intros Hs. apply andb_true_iff in Hs. destruct Hs as [Ha Hs].
  rewrite (H a Ha), (IH Hs). reflexivity.
Qed.

Lemma plain_no_comma (s : string) :
  PyStr.all_chars plain s = true -> PyStr.count "," s = 0.
Proof.
  induction s as [|a s IH]; simpl; [reflexivity|].
  intros H. apply andb_true_iff in H. destruct H as [Ha Hs].
  unfold plain in Ha. apply andb_true_iff in Ha. destruct Ha as [_ Ha].
  apply negb_true_iff in Ha. rewrite Ha. simpl. apply IH. exact Hs.
Qed.

Lemma join_plain_no_space (kmers : list string) :
  Forall (fun kmer => PyStr.all_chars plain kmer = true) kmers ->
  PyStr.all_chars (fun c => negb (PyStr.isspace c)) (PyStr.join_with "," kmers) = true.
Proof.
  assert (Hw : forall s, PyStr.all_chars plain s = true ->
                         PyStr.all_chars (fun c => negb (PyStr.isspace c)) s = true).
  { intros s. apply all_chars_weaken. intros c Hc. unfold plain in Hc.
    apply andb_true_iff in Hc. tauto. }
  induction 1 as [|x l Hx Hl IH]; [reflexivity|].
  destruct l as [|y l].
  - simpl. apply Hw. exact Hx.
  - rewrite join_with_cons, !all_chars_append, (Hw x Hx), IH. reflexivity.
Qed.

Lemma kmers_of_text_framed (kmers : list string) (ws1 ws2 : string) :
  kmers <> [] ->
  Forall (fun kmer => PyStr.all_chars plain kmer = true) kmers ->
  PyStr.all_chars PyStr.isspace ws1 = true ->
  PyStr.all_chars PyStr.isspace ws2 = true ->
  kmers_of_text (ws1 ++ PyStr.join_with "," kmers ++ ws2)%string = kmers.
Proof.
  intros Hne Hplain H1 H2. unfold kmers_of_text.
  rewrite strip_framed by (try apply join_plain_no_space; assumption).
  apply split_join; [exact Hne|].
  eapply Forall_impl; [|exact Hplain]. intros kmer. apply plain_no_comma.
Qed.

(** X16. Writing k-mers that contain neither white space nor commas as a
    text, with commas between them and any white space before and after,
    and reading the text gives the same k-mers in the same order. *)
Theorem kmers_of_text_roundtrip (kmers : list string) (ws1 ws2 : string) :
  kmers <> [] ->
  Forall (fun kmer => PyStr.all_chars plain kmer = true) kmers ->
  PyStr.all_chars PyStr.isspace ws1 = true ->
  PyStr.all_chars PyStr.isspace ws2 = true ->
  kmers_of_text (ws1 ++ PyStr.join_with "," kmers ++ ws2)%string = kmers.
Proof. apply kmers_of_text_framed. Qed.

Lemma kmers_of_text_roundtrip_witness :
  kmers_of_text ("  " ++ PyStr.join_with "," linear_kmers ++ String "010" "")%string
  = linear_kmers.
Proof.
  apply (kmers_of_text_roundtrip linear_kmers "  " (String "010" "")).
  - discriminate.
  - repeat constructor.
  - reflexivity.
  - reflexivity.
Defined.

(** ** The program as a whole *)

Lemma kmers_of_text_blank (content : string) :
  PyStr.all_chars PyStr.isspace content = true -> kmers_of_text content = [""].
Proof.
  intros H. unfold kmers_of_text, PyStr.strip.
  rewrite (lstrip_space_only content H). reflexivity.
Qed.

(** X17. For an input file that is empty or holds only white space the
    reader returns one empty k-mer, [main] raises IndexError (not the
    ValueError of a missing start node), nothing is written and the script
    prints nothing. *)
Theorem script_blank_file (w : Script.world) (prog input_file content : string) :
  Script.read_text w input_file = Some content ->
  PyStr.all_chars PyStr.isspace content = true ->
  Script.read_kmers_from_file w input_file = Script.Returned [""] /\
  Script.main w input_file Script.output_file = (Script.Raised IndexError, []) /\
  Script.script w [prog; input_file]
  = Script.mkRun [] (Script.Uncaught IndexError) [].
Proof.
  intros Hread Hblank.
  assert (Hr : Script.read_kmers_from_file w input_file = Script.Returned [""]).
  { unfold Script.read_kmers_from_file. rewrite Hread, (kmers_of_text_blank _ Hblank).
    reflexivity. }
  assert (Hm : Script.main w input_file Script.output_file
               = (Script.Raised IndexError, [])).
  { unfold Script.main. rewrite Hr. reflexivity. }
  split; [exact Hr|]. split; [exact Hm|].
  unfold Script.script. cbn [List.length Nat.eqb negb nth]. rewrite Hm. reflexivity.
Qed.

Lemma script_blank_file_witness :
  Script.script (Script.mkWorld (fun _ => Some (String "010" ""))
                                (fun _ => Script.OpenFailed)
                                (fun _ => true) (fun _ => true))
                ["assembler.py"; "input.txt"]
  = Script.mkRun [] (Script.Uncaught IndexError) [].
Proof.
  apply (script_blank_file
           (Script.mkWorld (fun _ => Some (String "010" ""))
                           (fun _ => Script.OpenFailed)
                           (fun _ => true) (fun _ => true))
           "assembler.py" "input.txt" (String "010" "")).
  - reflexivity.
  - reflexivity.
Defined.

(** X18. The script writes at most one file, the fixed output file, and
    only after the pipeline has returned a text from the input it read,
    which is the text written.  A run ends normally exactly when that
    write has happened and the success message can be printed, and the
    message is then the one line printed.  When the message cannot be
    printed (UnicodeEncodeError on a standard output whose encoding lacks
    its accented letters) the run ends with the exception of [print], the
    file being written already.  With a wrong number of arguments, an
    input that cannot be opened or decoded, an exception of the pipeline
    or an output file that cannot be opened, nothing is written and the
    run does not end normally; a wrong number of arguments prints the
    usage line, when it can be printed, and exits with status 1. *)
Theorem script_writes_only_on_success (w : Script.world) (argv : list string) :
  let r := Script.script w argv in
  let input_file := nth 1 argv "" in
  let message := Script.saved_message Script.output_file in
  (Script.writes r = [] \/
   exists content dna,
     List.length argv = 2 /\
     Script.read_text w input_file = Some content /\
     main (fun _ => kmers_of_text content) input_file = Ok dna /\
     Script.can_write w Script.output_file = true /\
     Script.writes r = [(Script.output_file, dna)]) /\
  (Script.run_end r = Script.Finished <->
   Script.writes r <> [] /\ Script.can_print w message = true) /\
  (Script.run_end r = Script.Finished -> Script.stdout r = [message]) /\
  (Script.writes r <> [] -> Script.can_print w message = false ->
   Script.run_end r = Script.UncaughtPrintError /\ Script.stdout r = []) /\
  (List.length argv <> 2 ->
   Script.writes r = [] /\
   (Script.can_print w Script.usage = true ->
    r = Script.mkRun [Script.usage] (Script.SysExit 1) []) /\
   (Script.can_print w Script.usage = false ->
    r = Script.mkRun [] Script.UncaughtPrintError [])) /\
  (List.length argv = 2 ->
   (Script.read_text w input_file = None ->
    Script.read_error w input_file = Script.OpenFailed ->
    r = Script.mkRun [] Script.UncaughtOSError []) /\
   (Script.read_text w input_file = None ->
    Script.read_error w input_file = Script.DecodeFailed ->
    r = Script.mkRun [] Script.UncaughtUnicodeDecodeError []) /\
   (forall content e,
       Script.read_text w input_file = Some content ->
       main (fun _ => kmers_of_text content) input_file = Raise e ->
       r = Script.mkRun [] (Script.Uncaught e) []) /\
   (forall content dna,
       Script.read_text w input_file = Some content ->
       main (fun _ => kmers_of_text content) input_file = Ok dna ->
       Script.can_write w Script.output_file = false ->
       r = Script.mkRun [] Script.UncaughtOSError [])).
Proof.
  cbv zeta. unfold Script.script.
  destruct (Nat.eqb_spec (List.length argv) 2) as [Hlen|Hlen]; cbn [negb].
  - unfold Script.main, Script.read_kmers_from_file.
    destruct (Script.read_text w (nth 1 argv "")) as [content|] eqn:Hread.
    + destruct (main (fun _ => kmers_of_text content) (nth 1 argv ""))
        as [dna|e] eqn:Hm.
      * destruct (Script.can_write w Script.output_file) eqn:Hw.
        -- destruct (Script.can_print w (Script.saved_message Script.output_file))
             eqn:Hp; cbn [Script.writes Script.run_end Script.stdout].
           ++ split; [right; exists content, dna; repeat split; assumption|].
              split; [split; [intros _; split; [discriminate|reflexivity]
                             | reflexivity]|].
              split; [reflexivity|].
              split; [intros _ Hf; discriminate Hf|].
              split; [intros Hne; contradiction|].
              intros _. split; [discriminate|]. split; [discriminate|].
              split; intros c x Hc Hx; injection Hc as <-; rewrite Hm in Hx;
                first [ discriminate Hx
                      | injection Hx as <-;
                        first [ reflexivity
                              | intros Hf; first [discriminate Hf | reflexivity] ] ].
           ++ split; [right; exists content, dna; repeat split; assumption|].
              split; [split; [discriminate | intros [_ Hf]; discriminate Hf]|].
              split; [discriminate|].
              split; [intros _ _; split; reflexivity|].
              split; [intros Hne; contradiction|].
              intros _. split; [discriminate|]. split; [discriminate|].
              split; intros c x Hc Hx; injection Hc as <-; rewrite Hm in Hx;
                first [ discriminate Hx
                      | injection Hx as <-;
                        first [ reflexivity
                              | intros Hf; first [discriminate Hf | reflexivity] ] ].
        -- cbn [Script.writes Script.run_end Script.stdout].
           split; [left; reflexivity|].
           split; [split; [discriminate | intros [Hf _]; contradiction]|].
           split; [discriminate|].
           split; [intros Hf; contradiction|].
           split; [intros Hne; contradiction|].
           intros _. split; [discriminate|]. split; [discriminate|].
           split; intros c x Hc Hx; injection Hc as <-; rewrite Hm in Hx;
                first [ discriminate Hx
                      | injection Hx as <-;
                        first [ reflexivity
                              | intros Hf; first [discriminate Hf | reflexivity] ] ].
      * cbn [Script.writes Script.run_end Script.stdout].
        split; [left; reflexivity|].
        split; [split; [discriminate | intros [Hf _]; contradiction]|].
        split; [discriminate|].
        split; [intros Hf; contradiction|].
        split; [intros Hne; contradiction|].
        intros _. split; [discriminate|]. split; [discriminate|].
        split; intros c x Hc Hx; injection Hc as <-; rewrite Hm in Hx;
                first [ discriminate Hx
                      | injection Hx as <-;
                        first [ reflexivity
                              | intros Hf; first [discriminate Hf | reflexivity] ] ].
    + destruct (Script.read_error w (nth 1 argv "")) eqn:Herr;
        cbn [Script.writes Script.run_end Script.stdout];
        (split; [left; reflexivity|]);
        (split; [split; [discriminate | intros [Hf _]; contradiction]|]);
        (split; [discriminate|]);
        (split; [intros Hf; contradiction|]);
        (split; [intros Hne; contradiction|]);
        intros _;
        (split; [intros _ Hx; try discriminate Hx; reflexivity|]);
        (split; [intros _ Hx; try discriminate Hx; reflexivity|]);
        split; intros c x Hc; discriminate Hc.
  - destruct (Script.can_print w Script.usage) eqn:Hu;
      cbn [Script.writes Script.run_end Script.stdout];
      (split; [left; reflexivity|]);
      (split; [split; [discriminate | intros [Hf _]; contradiction]|]);
      (split; [discriminate|]);
      (split; [intros Hf; contradiction|]);
      (split; [intros _; split; [reflexivity|];
               split; intros Hx; try discriminate Hx; reflexivity|]);
      intros Hx; contradiction.
Qed.

Lemma script_writes_only_on_success_witness :
  Script.script (Script.mkWorld (fun _ => None) (fun _ => Script.OpenFailed)
                                (fun _ => true) (fun _ => true))
                ["assembler.py"]
  = Script.mkRun [Script.usage] (Script.SysExit 1) [].
Proof.
  destruct (script_writes_only_on_success
              (Script.mkWorld (fun _ => None) (fun _ => Script.OpenFailed)
                              (fun _ => true) (fun _ => true))
              ["assembler.py"])
    as (_ & _ & _ & _ & Husage & _).
  destruct Husage as (_ & Hprinted & _).
  - discriminate.
  - apply Hprinted. reflexivity.
Defined.

Lemma all_chars_take (p : ascii -> bool) (n : nat) (s : string) :
  PyStr.all_chars p s = true -> PyStr.all_chars p (take n s) = true.
Proof.
  revert s. induction n as [|n IH]; intros s H; destruct s as [|c t];
    try reflexivity.
  simpl in *. apply andb_true_iff in H. destruct H as [Hc Ht].
  rewrite Hc, (IH t Ht). reflexivity.
Qed.

Lemma kmers_of_all_chars (p : ascii -> bool) (k : nat) (s : string) :
  PyStr.all_chars p s = true ->
  Forall (fun kmer => PyStr.all_chars p kmer = true) (kmers_of k s).
Proof.
  induction s as [|c t IH]; intros H.
  - simpl. destruct (Nat.leb k 0); repeat constructor. destruct k; reflexivity.
  - rewrite kmers_of_cons. destruct (Nat.leb k (S (String.length t))); constructor.
    + apply all_chars_take. exact H.
    + apply IH. simpl in H. apply andb_true_iff in H. tauto.
Qed.

(** X19. End to end: let [s] be a string of at least [k >= 2] characters,
    none of them white space or a comma, and let the input file hold the
    k-mers of [s] in order, separated by commas, with any white space
    before and after; let the output file be writable.  Then the script
    writes one text to the output file; the text has the length of [s] and
    the same k-mers as [s] up to their order, and it is [s] itself when
    the (k-1)-mers of [s] are pairwise distinct.  After the write the run
    ends normally, the success message printed, when standard output can
    print the message; otherwise it ends with the exception of [print],
    nothing printed and the file written all the same. *)
Theorem script_roundtrip (w : Script.world) (prog input_file : string)
  (k : nat) (s ws1 ws2 : string) :
  2 <= k -> k <= String.length s ->
  PyStr.all_chars plain s = true ->
  PyStr.all_chars PyStr.isspace ws1 = true ->
  PyStr.all_chars PyStr.isspace ws2 = true ->
  Script.read_text w input_file
  = Some (ws1 ++ PyStr.join_with "," (kmers_of k s) ++ ws2)%string ->
  Script.can_write w Script.output_file = true ->
  let message := Script.saved_message Script.output_file in
  let run_writing (dna : string) :=
    if Script.can_print w message
    then Script.mkRun [message] Script.Finished [(Script.output_file, dna)]
    else Script.mkRun [] Script.UncaughtPrintError [(Script.output_file, dna)] in
  (exists s',
      Script.script w [prog; input_file] = run_writing s' /\
      String.length s' = String.length s /\
      Permutation (kmers_of k s') (kmers_of k s)) /\
  (NoDup (kmers_of (k - 1) s) ->
   Script.script w [prog; input_file] = run_writing s).
Proof.
  intros Hk Hlen Hplain H1 H2 Hread Hwrite message run_writing.
  assert (Hkmers : kmers_of_text (ws1 ++ PyStr.join_with "," (kmers_of k s) ++ ws2)%string
                   = kmers_of k s).
  { apply kmers_of_text_framed; try assumption.
    - rewrite (kmers_of_head k s) by lia. discriminate.
    - apply kmers_of_all_chars. exact Hplain. }
  assert (Hrun : forall dna,
             main (fun _ => kmers_of k s) input_file = Ok dna ->
             Script.script w [prog; input_file] = run_writing dna).
  { intros dna Hmain. unfold Script.script. cbn [List.length Nat.eqb negb nth].
    unfold Script.main, Script.read_kmers_from_file.
    rewrite Hread, Hkmers, Hmain, Hwrite. reflexivity. }
  split.
  - destruct k as [|j]; [lia|].
    destruct (roundtrip_kmers j s input_file) as (s' & Hmain & Hl & Hp); try lia.
    exists s'. split; [apply Hrun; exact Hmain|]. split; assumption.
  - intros Hnd. apply Hrun. apply roundtrip_chain; assumption.
Qed.

Lemma script_roundtrip_witness :
  Script.script
    (Script.mkWorld
       (fun _ => Some (" " ++ PyStr.join_with "," (kmers_of 3 "AABCDA")
                       ++ String "010" "")%string)
       (fun _ => Script.OpenFailed)
       (fun _ => true)
       (fun _ => true))
    ["assembler.py"; "input.txt"]
  = Script.mkRun [Script.saved_message Script.output_file] Script.Finished
                 [(Script.output_file, "AABCDA")].
Proof.
  destruct (script_roundtrip
              (Script.mkWorld
                 (fun _ => Some (" " ++ PyStr.join_with "," (kmers_of 3 "AABCDA")
                                 ++ String "010" "")%string)
                 (fun _ => Script.OpenFailed)
                 (fun _ => true)
                 (fun _ => true))
              "assembler.py" "input.txt" 3 "AABCDA" " " (String "010" ""))
    as [_ Hexact].
  - apply le_S, le_n.
  - vm_compute. apply le_S, le_S, le_S, le_n.
  - reflexivity.
  - reflexivity.
  - reflexivity.
  - reflexivity.
  - reflexivity.
  - apply Hexact. vm_compute. repeat constructor; simpl; intuition discriminate.
Defined.

(** ** K-mers in any order *)

(** [find_starting_node_trail] for k-mers that are given in any order. *)
Lemma find_starting_node_trail_any_order
  (kmers : list string) (a b : Node) (rest : list Node) :
  Permutation (map kmer_edge kmers) (pairs (a :: b :: rest)) ->
  let r := build_de_bruijn_graph kmers in
  exists start_node tl,
    find_starting_node (graph_of r) (in_degree_of r) (out_degree_of r)
    = Some start_node /\
    Permutation (pairs (start_node :: tl)) (pairs (a :: b :: rest)) /\
    (last (b :: rest) a <> a -> start_node = a).
Proof.
  intros Hedges r.
  destruct (build_edges kmers) as (_ & _ & Hkeys & Hout0 & Hin0).
  fold r in Hkeys, Hout0, Hin0.
  pose proof (pairs_balanced (b :: rest) a) as Hbal.
  set (es := pairs (a :: b :: rest)) in *. set (e := last (b :: rest) a) in *.
  assert (Hout : forall u, degree (out_degree_of r) u = Z.of_nat (out_count es u)).
  { intros u. rewrite Hout0, (out_count_perm _ _ u Hedges). reflexivity. }
  assert (Hin : forall u, degree (in_degree_of r) u = Z.of_nat (in_count es u)).
  { intros u. rewrite Hin0, (in_count_perm _ _ u Hedges). reflexivity. }
  assert (Hprefixes : forall u, In u (map Py.slice_init kmers) <-> In u (map fst es)).
  { intros u.
    replace (map Py.slice_init kmers) with (map fst (map kmer_edge kmers))
      by (rewrite map_map; reflexivity).
    split; apply Permutation_in; [|symmetry]; apply Permutation_map; exact Hedges. }
  assert (Hfst : forall u, In u (dict_keys (graph_of r)) -> In u (a :: b :: rest)).
  { intros u Hu. apply Hkeys, Hprefixes in Hu. apply pairs_fst_incl. exact Hu. }
  assert (Ha : In a (dict_keys (graph_of r))).
  { apply Hkeys, Hprefixes. unfold es. rewrite pairs_cons_cons. left. reflexivity. }
  assert (Hsrc : forall u, is_source (in_degree_of r) (out_degree_of r) u = true
                           <-> out_count es u = in_count es u + 1).
  { intros u. unfold is_source. rewrite Hout, Hin, Z.eqb_eq. lia. }
  assert (Hbalanced : forall u, is_balanced (in_degree_of r) (out_degree_of r) u = true
                                <-> out_count es u = in_count es u).
  { intros u. unfold is_balanced. rewrite Hout, Hin, Z.eqb_eq. lia. }
  rewrite find_starting_node_spec. unfold last_balanced.
  destruct (string_dec e a) as [Hclosed|Hopen].
  - assert (Hall : forall u, out_count es u = in_count es u).
    { intros u. specialize (Hbal u). rewrite Hclosed in Hbal. lia. }
    rewrite find_all_false.
    2:{ intros u. destruct (is_source _ _ u) eqn:E; [|reflexivity].
        apply Hsrc in E. rewrite Hall in E. lia. }
    destruct (rev (dict_keys (graph_of r))) as [|k ks] eqn:Erev.
    { apply (f_equal (@rev string)) in Erev. rewrite rev_involutive in Erev.
      rewrite Erev in Ha. contradiction. }
    assert (Hk : In k (a :: b :: rest)).
    { apply Hfst. apply in_rev. rewrite Erev. left. reflexivity. }
    destruct (circuit_rotate a k (b :: rest) Hclosed Hk) as [tl Htl].
    exists k, tl. cbn [find].
    rewrite (proj2 (Hbalanced k) (Hall k)).
    split; [reflexivity|]. split; [exact Htl | intros H; contradiction].
  - assert (Hunit : unit_at e a = 0).
    { unfold unit_at. destruct (string_dec e a); [contradiction | reflexivity]. }
    destruct (find (is_source (in_degree_of r) (out_degree_of r))
                   (dict_keys (graph_of r))) as [v|] eqn:E.
    + apply find_some in E. destruct E as [_ Hv]. apply Hsrc in Hv.
      assert (v = a).
      { specialize (Hbal v). unfold unit_at in Hbal.
        destruct (string_dec a v); [congruence|].
        destruct (string_dec e v); lia. }
      subst v. exists a, (b :: rest).
      split; [reflexivity|]. split; [apply Permutation_refl | reflexivity].
    + exfalso. pose proof (find_none _ _ E a Ha) as Hf.
      assert (Ht : is_source (in_degree_of r) (out_degree_of r) a = true).
      { apply Hsrc. specialize (Hbal a). rewrite Hunit, unit_at_refl in Hbal. lia. }
      congruence.
Qed.

(** The pipeline on k-mers whose edges, in some order, follow a node
    sequence: the path that is assembled is a trail over the same edges. *)
Lemma main_on_trail (j : nat) (kmers : list string) (a b : Node) (rest : list Node)
  (input_file : string) :
  Forall (fun kmer => String.length kmer = S j) kmers ->
  Permutation (map kmer_edge kmers) (pairs (a :: b :: rest)) ->
  exists start_node rest',
    main (fun _ => kmers) input_file = assemble (start_node :: rest') /\
    Permutation (pairs (start_node :: rest')) (pairs (a :: b :: rest)) /\
    String.length start_node = j /\
    (last (b :: rest) a <> a -> start_node = a).
Proof.
  intros Heach Hedges.
  destruct (find_starting_node_trail_any_order kmers a b rest Hedges)
    as (start_node & tl & Hfind & Hrot & Hopen).
  destruct (build_edges kmers) as (Hnd & Hperm & _).
  pose proof (build_nodes_len (S j) kmers Heach) as Hnodes.
  replace (S j - 1) with j in Hnodes by lia.
  pose proof (find_starting_node_In _ _ _ _ Hfind) as Hkey.
  pose proof (graph_nodes_len_keys _ _ _ Hnodes Hkey) as Hstart.
  assert (Htrail : eulerian_trail (graph_of (build_de_bruijn_graph kmers))
                                  (start_node :: tl)).
  { unfold eulerian_trail. rewrite Hperm, Hedges. symmetry. exact Hrot. }
  destruct (walk_final_eulerian _ _ _ Hnd Htrail) as (_ & Hpath & _).
  destruct (walk_final_path (graph_of (build_de_bruijn_graph kmers)) start_node)
    as (rest' & Hrest' & _).
  rewrite Hrest' in Hpath.
  exists start_node, rest'. split; [|split; [|split]].
  - rewrite main_unfold. cbv zeta. rewrite Hfind.
    unfold reconstruct_dna. cbv zeta. cbn [snd]. rewrite Hrest'. reflexivity.
  - rewrite Hpath. exact Hrot.
  - exact Hstart.
  - exact Hopen.
Qed.

(** A sequence of distinct nodes is the only trail over its edges that
    begins at its first node. *)
Lemma trail_unique (ns : list Node) :
  NoDup ns ->
  forall path,
    Permutation (pairs path) (pairs ns) ->
    hd_error path = hd_error ns ->
    ns <> [] ->
    path = ns.
Proof.
  induction 1 as [|a ns Hnotin Hnd IH]; intros path Hperm Hhd Hne; [congruence|].
  destruct path as [|a' path]; [discriminate|]. injection Hhd as ->.
  destruct ns as [|b ns].
  - destruct path as [|x path]; [reflexivity|].
    rewrite pairs_cons_cons in Hperm. apply Permutation_sym, Permutation_nil in Hperm.
    discriminate.
  - rewrite pairs_cons_cons in Hperm.
    destruct path as [|x path].
    { apply Permutation_nil in Hperm. discriminate. }
    rewrite pairs_cons_cons in Hperm.
    assert (Hx : x = b).
    { assert (Hin : In (a, x) ((a, b) :: pairs (b :: ns))).
      { apply (Permutation_in _ Hperm). left. reflexivity. }
      destruct Hin as [[= ->]|Hin]; [reflexivity|].
      apply pairs_In in Hin. tauto. }
    subst x. f_equal. apply IH.
    + apply Permutation_cons_inv in Hperm. exact Hperm.
    + reflexivity.
    + discriminate.
Qed.

Lemma last_In {A : Type} (l : list A) (d : A) : l <> [] -> In (last l d) l.
Proof.
  induction l as [|a l IH]; [congruence|]. intros _.
  destruct l as [|b l]; [left; reflexivity|].
  right. apply IH. discriminate.
Qed.

(** X20. The order of the k-mers does not matter.  Let [s] have at least
    [k >= 2] characters and let the input be the k-mers of [s] in any
    order.  Then [main] returns a string of the length of [s] whose k-mers
    are the input up to their order; and it returns [s] itself when the
    (k-1)-mers of [s] are pairwise distinct. *)
Theorem main_any_order (k : nat) (s : string) (kmers : list string)
  (input_file : string) :
  2 <= k -> k <= String.length s ->
  Permutation kmers (kmers_of k s) ->
  (exists s',
      main (fun _ => kmers) input_file = Ok s' /\
      String.length s' = String.length s /\
      Permutation (kmers_of k s') kmers) /\
  (NoDup (kmers_of (k - 1) s) -> main (fun _ => kmers) input_file = Ok s).
Proof.
  intros Hk Hlen Hshuffle.
  destruct k as [|j]; [lia|]. replace (S j - 1) with j by lia.
  assert (Hj : 1 <= j) by lia.
  pose proof (assemble_kmers_of j s Hj ltac:(lia)) as Hasm.
  assert (Hedges : Permutation (map kmer_edge kmers) (pairs (kmers_of j s))).
  { rewrite <- (kmer_edges_of_string j s Hj). apply Permutation_map. exact Hshuffle. }
  assert (Heach : Forall (fun kmer => String.length kmer = S j) kmers).
  { eapply Permutation_Forall; [symmetry; exact Hshuffle|].
    apply kmers_of_each_length. }
  rewrite (kmers_of_head j s) in Hedges, Hasm |- * by lia.
  rewrite (kmers_of_head j (Py.slice_tail s)) in Hedges, Hasm |- *
    by (try rewrite slice_tail_length; lia).
  set (a := take j s) in *.
  set (b := take j (Py.slice_tail s)) in *.
  set (rest := kmers_of j (Py.slice_tail (Py.slice_tail s))) in *.
  assert (Ha : String.length a = j) by (apply take_length; lia).
  destruct (main_on_trail j kmers a b rest input_file Heach Hedges)
    as (start_node & rest' & Hmain & Hpath & Hstart & Hopen).
  assert (Hov : Forall (overlap j) (pairs (a :: b :: rest))).
  { eapply Permutation_Forall; [exact Hedges|]. apply Forall_map.
    eapply Forall_impl; [|exact Heach]. intros kmer. apply kmer_edge_overlap. }
  split.
  - assert (Hov' : Forall (overlap j) (pairs (start_node :: rest'))).
    { eapply Permutation_Forall; [symmetry; exact Hpath | exact Hov]. }
    destruct (assemble_trail j rest' Hj start_node Hstart Hov')
      as (cs & Hcs & _ & Hkm & Hlen').
    destruct (assemble_trail j (b :: rest) Hj a Ha Hov)
      as (cs0 & Hcs0 & _ & _ & Hlen0).
    exists (Py.join (start_node :: cs)). split; [|split].
    + rewrite Hmain. cbn [assemble]. rewrite Hcs. reflexivity.
    + rewrite Hlen'. cbn [assemble] in Hasm. rewrite Hcs0 in Hasm.
      cbn [bind] in Hasm. injection Hasm as Hs. rewrite <- Hs, Hlen0.
      apply Permutation_length in Hpath. rewrite !pairs_length in Hpath.
      simpl List.length in *. lia.
    + rewrite Hkm.
      rewrite (Permutation_map edge_kmer Hpath).
      rewrite <- (Permutation_map edge_kmer Hedges), map_map.
      rewrite (map_ext_in _ (fun kmer => kmer)), map_id; [apply Permutation_refl|].
      intros kmer Hin. apply edge_kmer_kmer_edge.
      rewrite Forall_forall in Heach. rewrite (Heach kmer Hin). lia.
  - intros Hnd.
    assert (Hfirst : start_node = a).
    { apply Hopen. intros Hlast.
      pose proof (proj1 (NoDup_cons_iff _ _) Hnd) as [Hnotin _]. apply Hnotin.
      rewrite <- Hlast at 1. apply last_In. discriminate. }
    subst start_node.
    rewrite Hmain, (trail_unique (a :: b :: rest) Hnd (a :: rest') Hpath eq_refl)
      by discriminate.
    exact Hasm.
Qed.

Lemma main_any_order_witness :
  main (fun _ => ["BCD"; "CDA"; "AAB"; "ABC"]) "input.txt" = Ok "AABCDA".
Proof.
  destruct (main_any_order 3 "AABCDA" ["BCD"; "CDA"; "AAB"; "ABC"] "input.txt")
    as [_ Hexact].
  - apply le_S, le_n.
  - vm_compute. apply le_S, le_S, le_S, le_n.
  - change (kmers_of 3 "AABCDA") with ["AAB"; "ABC"; "BCD"; "CDA"].
    apply Permutation_sym.
    apply (Permutation_app_comm ["AAB"; "ABC"] ["BCD"; "CDA"]).
  - apply Hexact. vm_compute. repeat constructor; simpl; intuition discriminate.
Defined.
